(** * MultiThreaded-Server: sequential models of the chapter 3 and chapter 6
      demonstration code, and the properties checked against them.

    The C++ sources are translated function by function.  A member function
    becomes a function from the object's state to an [outcome]: it returns,
    throws (the state it leaves behind is kept), waits for ever, or has
    undefined behaviour.  Everything here is the behaviour of ONE thread
    running the calls one after another. *)

From stdpp Require Import gmap strings list fin_maps pretty.
From Stdlib Require Import ZArith Ascii.

Open Scope Z_scope.

(** ** Outcomes of a call *)

(** The exceptions the sources throw: [empty_stack] (chapter-3.cpp, a struct
    deriving from std::exception) and [std::logic_error] with its message. *)
Inductive exception : Type :=
| empty_stack
| logic_error (what : string).

Inductive outcome (S A : Type) : Type :=
| Returns (a : A) (s : S)        (* normal return, new state *)
| Throws (e : exception) (s : S) (* an exception leaves the function *)
| Blocks                         (* the only thread waits for ever *)
| Undefined.                     (* undefined behaviour *)

Arguments Returns {S A} a s.
Arguments Throws {S A} e s.
Arguments Blocks {S A}.
Arguments Undefined {S A}.

Definition bind {S A B} (c : S → outcome S A) (k : A → S → outcome S B)
  : S → outcome S B :=
  λ s, match c s with
       | Returns a s' => k a s'
       | Throws e s' => Throws e s'
       | Blocks => Blocks
       | Undefined => Undefined
       end.

Definition ret {S A} (a : A) : S → outcome S A := λ s, Returns a s.

Notation "'let!' x ':=' c 'in' k" := (bind c (λ x, k))
  (at level 10, x name, c at level 100, k at level 200, only parsing).
Notation "c >>> k" := (bind c (λ _, k))
  (at level 90, right associativity, only parsing).

(** ** std::mutex and std::lock_guard *)

(** A std::mutex as one thread sees it.  Locking a mutex the calling thread
    already owns, and unlocking one it does not own, are undefined. *)
Inductive mutex : Type := Free | Held.

(** Where a std::mutex lives inside a state [S]. *)
Record mutex_ref (S : Type) : Type := MutexRef {
  mget : S → mutex;
  mset : mutex → S → S
}.
Arguments MutexRef {S} mget mset.
Arguments mget {S} _ _.
Arguments mset {S} _ _ _.

(** The BasicLockable requirement of std::lock_guard: a [lock] and an
    [unlock] on a reference [M] to a lock inside the state [S]. *)
Class BasicLockable (S M : Type) : Type := {
  lock : M → S → outcome S unit;
  unlock : M → S → outcome S unit
}.

Definition mutex_lock {S} (r : mutex_ref S) : S → outcome S unit :=
  λ s, match mget r s with
       | Free => Returns tt (mset r Held s)
       | Held => Undefined
       end.

Definition mutex_unlock {S} (r : mutex_ref S) : S → outcome S unit :=
  λ s, match mget r s with
       | Held => Returns tt (mset r Free s)
       | Free => Undefined
       end.

#[export] Instance std_mutex_lockable {S} : BasicLockable S (mutex_ref S) := {
  lock := mutex_lock;
  unlock := mutex_unlock
}.

(** [std::lock_guard<M> lk(m); body]: the constructor locks; if it throws
    there is no guard and nothing to release.  The destructor unlocks when
    the scope is left, by return or by an exception passing through. *)
Definition lock_guard {S M A} `{BasicLockable S M} (m : M)
    (body : S → outcome S A) : S → outcome S A :=
  λ s, match lock m s with
       | Returns _ s1 =>
           match body s1 with
           | Returns a s2 =>
               match unlock m s2 with
               | Returns _ s3 => Returns a s3
               | Throws e s3 => Throws e s3
               | Blocks => Blocks
               | Undefined => Undefined
               end
           | Throws e s2 =>
               match unlock m s2 with
               | Returns _ s3 => Throws e s3
               | Throws e' s3 => Throws e' s3
               | Blocks => Blocks
               | Undefined => Undefined
               end
           | Blocks => Blocks
           | Undefined => Undefined
           end
       | Throws e s1 => Throws e s1
       | Blocks => Blocks
       | Undefined => Undefined
       end.

(** A [std::shared_ptr<T>]: empty, or a cell holding a value.  The cells of
    these programs are never written after [make_shared], so sharing is not
    observable and the handle is modelled by its content. *)
Definition shared_ptr (T : Type) : Type := option T.
Definition make_shared {T} (v : T) : shared_ptr T := Some v.

(** ** chapter-3.cpp: threadsafe_stack *)

Module Stack.
Section Stack.
Context {T : Type}.

(** [std::stack<T> data] with the top first, and [mutable std::mutex m]. *)
Record threadsafe_stack : Type := Mk {
  data : list T;
  m : mutex
}.

Definition m_ref : mutex_ref threadsafe_stack :=
  MutexRef m (λ x s, Mk (data s) x).

(** threadsafe_stack() {} *)
Definition new : threadsafe_stack := Mk [] Free.

(** void push(T value) *)
Definition push (value : T) : threadsafe_stack → outcome threadsafe_stack unit :=
  lock_guard m_ref (λ s, Returns tt (Mk (value :: data s) (m s))).

(** std::shared_ptr<T> pop(void) *)
Definition pop : threadsafe_stack → outcome threadsafe_stack (shared_ptr T) :=
  lock_guard m_ref (λ s,
    match data s with
    | [] => Throws empty_stack s
    | top :: rest =>
        let res := make_shared top in
        Returns res (Mk rest (m s))
    end).

(** void pop(T& popped_val): the result is the value left in the caller's
    variable. *)
Definition pop_ref : threadsafe_stack → outcome threadsafe_stack T :=
  lock_guard m_ref (λ s,
    match data s with
    | [] => Throws empty_stack s
    | top :: rest => Returns top (Mk rest (m s))
    end).

(** bool empty() const *)
Definition empty : threadsafe_stack → outcome threadsafe_stack bool :=
  lock_guard m_ref (λ s,
    Returns (match data s with [] => true | _ => false end) s).

End Stack.
Arguments threadsafe_stack : clear implicits.
End Stack.

(** ** part_000 (chapter 3, lock hierarchy): hierarchical_mutex *)

Module Hierarchy.

(** unsigned long on the LP64 targets the Makefile's g++ builds for. *)
Definition ULONG_MAX : Z := 2 ^ 64 - 1.
Definition to_ulong (z : Z) : Z := z mod (ULONG_MAX + 1).

Record hierarchical_mutex : Type := HMutex {
  internal_mutex : mutex;
  hierarchy_value : Z;
  previous_hierarchy_value : Z
}.

(** explicit hierarchical_mutex(unsigned long value) *)
Definition mk_hierarchical_mutex (value : Z) : hierarchical_mutex :=
  HMutex Free (to_ulong value) 0.

(** The three global mutexes of the file. *)
Inductive mutex_id : Type := high_level_mutex | low_level_mutex | other_mutex.

(** What one thread sees: its thread_local rank and the globals. *)
Record world : Type := World {
  this_thread_hierarchy_value : Z;
  high : hierarchical_mutex;
  low : hierarchical_mutex;
  other : hierarchical_mutex
}.

Definition get (i : mutex_id) (w : world) : hierarchical_mutex :=
  match i with
  | high_level_mutex => high w
  | low_level_mutex => low w
  | other_mutex => other w
  end.

Definition set (i : mutex_id) (x : hierarchical_mutex) (w : world) : world :=
  match i with
  | high_level_mutex =>
      World (this_thread_hierarchy_value w) x (low w) (other w)
  | low_level_mutex =>
      World (this_thread_hierarchy_value w) (high w) x (other w)
  | other_mutex =>
      World (this_thread_hierarchy_value w) (high w) (low w) x
  end.

Definition set_this_thread (v : Z) (w : world) : world :=
  World v (high w) (low w) (other w).

(** thread_local ... this_thread_hierarchy_value(ULONG_MAX);
    high_level_mutex(10000); low_level_mutex(5000); other_mutex(100). *)
Definition initial : world :=
  World ULONG_MAX (mk_hierarchical_mutex 10000) (mk_hierarchical_mutex 5000)
        (mk_hierarchical_mutex 100).

Definition violation : exception := logic_error "mutex hierarchy violated".

Definition check_for_hierarchy_violation (i : mutex_id)
  : world → outcome world unit :=
  λ w, if this_thread_hierarchy_value w <=? hierarchy_value (get i w)
       then Throws violation w
       else Returns tt w.

Definition update_hierarchy_value (i : mutex_id) : world → outcome world unit :=
  λ w, let x := get i w in
       let w1 := set i (HMutex (internal_mutex x) (hierarchy_value x)
                               (this_thread_hierarchy_value w)) w in
       Returns tt (set_this_thread (hierarchy_value x) w1).

Definition internal (i : mutex_id) : mutex_ref world :=
  MutexRef (λ w, internal_mutex (get i w))
           (λ b w, let x := get i w in
                   set i (HMutex b (hierarchy_value x)
                                 (previous_hierarchy_value x)) w).

(** void lock() *)
Definition hlock (i : mutex_id) : world → outcome world unit :=
  check_for_hierarchy_violation i >>>
  mutex_lock (internal i) >>>
  update_hierarchy_value i.

(** void unlock() *)
Definition hunlock (i : mutex_id) : world → outcome world unit :=
  (λ w, Returns tt
          (set_this_thread (previous_hierarchy_value (get i w)) w)) >>>
  mutex_unlock (internal i).

(** bool try_lock().  std::mutex::try_lock on a mutex the caller owns is
    undefined; on a free one it may still fail, so what it answers is
    given as [acquired]. *)
Definition mutex_try_lock {S} (r : mutex_ref S) (acquired : bool)
  : S → outcome S bool :=
  λ s, match mget r s with
       | Free => if acquired then Returns true (mset r Held s)
                 else Returns false s
       | Held => Undefined
       end.

Definition try_lock (i : mutex_id) (acquired : bool)
  : world → outcome world bool :=
  check_for_hierarchy_violation i >>>
  let! got := mutex_try_lock (internal i) acquired in
  if negb got then ret false
  else update_hierarchy_value i >>> ret true.

#[export] Instance hierarchical_lockable : BasicLockable world mutex_id := {
  lock := hlock;
  unlock := hunlock
}.

Section Threads.
(** Declared in the file and defined nowhere: what they compute is left
    open; they are taken not to touch the hierarchical mutexes. *)
Variable do_low_level_stuff : Z.
Variable high_level_stuff : Z → unit.
Variable do_other_stuff : unit.

Definition low_level_func : world → outcome world Z :=
  lock_guard low_level_mutex (ret do_low_level_stuff).

Definition high_level_func : world → outcome world unit :=
  lock_guard high_level_mutex
    (let! some_param := low_level_func in
     ret (high_level_stuff some_param)).

Definition thread_a : world → outcome world unit :=
  high_level_func.

Definition other_stuff : world → outcome world unit :=
  high_level_func >>> ret do_other_stuff.

Definition thread_b : world → outcome world unit :=
  lock_guard other_mutex other_stuff.
End Threads.

End Hierarchy.

(** ** chapter-6.cpp: threadsafe_list, locked hand over hand *)

Module HandOverHand.
Section List.
Context {T : Type}.

(** struct node { std::mutex m; std::shared_ptr<T> data;
                  std::unique_ptr<node> next; }.
    A unique_ptr owns what it points to, so the chain is a value. *)
Inductive node : Type :=
| Node (m : mutex) (data : shared_ptr T) (next : unique_ptr)
with unique_ptr : Type :=
| nullptr
| owns (n : node).

Definition m (n : node) : mutex := let 'Node x _ _ := n in x.
Definition data (n : node) : shared_ptr T := let 'Node _ d _ := n in d.
Definition next (n : node) : unique_ptr := let 'Node _ _ nx := n in nx.

(** node(): next() {} *)
Definition node_default : node := Node Free None nullptr.
(** node(T const& value): data(std::make_shared<T>(value)) {} *)
Definition node_of (value : T) : node := Node Free (make_shared value) nullptr.

(** class threadsafe_list { node head; ... } *)
Record threadsafe_list : Type := List { head : node }.

(** threadsafe_list() {} *)
Definition new : threadsafe_list := List node_default.

(** Locking a node's mutex.  Every member function releases each mutex it
    took before it returns, so a node is left with its mutex as it was
    found, and all that is recorded is whether the lock can be taken: a
    held mutex is held by this thread, and locking it again is undefined
    (None in the loops below). *)
Definition acquire (n : node) : bool :=
  match m n with Free => true | Held => false end.

(** void push_front(T const& value) *)
Definition push_front (value : T) : threadsafe_list → outcome threadsafe_list unit :=
  λ l,
    let new_node := node_of value in
    if acquire (head l) then
      let new_node := Node (m new_node) (data new_node) (next (head l)) in
      Returns tt (List (Node (m (head l)) (data (head l)) (owns new_node)))
    else Undefined.

(** The loop of for_each, from [current->next] on.  [f] acts on the
    caller's state [A]. *)
Fixpoint for_each_loop {A} (f : T → A → A) (nxt : unique_ptr) (a : A)
  : option A :=
  match nxt with
  | nullptr => Some a
  | owns (Node mx d nx) =>
      match mx with
      | Held => None
      | Free =>
          match d with
          | None => None                     (* *next->data on an empty handle *)
          | Some v => for_each_loop f nx (f v a)
          end
      end
  end.

(** template<typename Function> void for_each(Function f) *)
Definition for_each {A} (f : T → A → A) (a : A)
  : threadsafe_list → outcome threadsafe_list A :=
  λ l, if acquire (head l) then
         match for_each_loop f (next (head l)) a with
         | Some a' => Returns a' l
         | None => Undefined
         end
       else Undefined.

Fixpoint find_first_if_loop (p : T → bool) (nxt : unique_ptr)
  : option (shared_ptr T) :=
  match nxt with
  | nullptr => Some None
  | owns (Node mx d nx) =>
      match mx with
      | Held => None
      | Free =>
          match d with
          | None => None
          | Some v => if p v then Some d else find_first_if_loop p nx
          end
      end
  end.

(** template<typename Predicate> std::shared_ptr<T> find_first_if(Predicate p) *)
Definition find_first_if (p : T → bool)
  : threadsafe_list → outcome threadsafe_list (shared_ptr T) :=
  λ l, if acquire (head l) then
         match find_first_if_loop p (next (head l)) with
         | Some r => Returns r l
         | None => Undefined
         end
       else Undefined.

(** The loop of remove_if: what [current->next] is when the loop ends. *)
Fixpoint remove_if_loop (p : T → bool) (nxt : unique_ptr)
  : option unique_ptr :=
  match nxt with
  | nullptr => Some nullptr
  | owns (Node mx d nx) =>
      match mx with
      | Held => None
      | Free =>
          match d with
          | None => None
          | Some v =>
              if p v then
                (* current->next = std::move(next->next); same current *)
                remove_if_loop p nx
              else
                (* current = next *)
                match remove_if_loop p nx with
                | Some nx' => Some (owns (Node mx d nx'))
                | None => None
                end
          end
      end
  end.

(** template<typename Predicate> void remove_if(Predicate p) *)
Definition remove_if (p : T → bool)
  : threadsafe_list → outcome threadsafe_list unit :=
  λ l, if acquire (head l) then
         match remove_if_loop p (next (head l)) with
         | Some nx' => Returns tt (List (Node (m (head l)) (data (head l)) nx'))
         | None => Undefined
         end
       else Undefined.

(** push_front of each value in turn, first to last: the for loop of the
    free function getHead. *)
Fixpoint push_each (a : list T) : threadsafe_list → outcome threadsafe_list unit :=
  match a with
  | [] => ret tt
  | i :: rest => push_front i >>> push_each rest
  end.

(** node* getHead() { return &head; } *)
Definition list_getHead (l : threadsafe_list) : node := head l.

(** The values held from the front, sentinel left out. *)
Fixpoint values (nxt : unique_ptr) : list (shared_ptr T) :=
  match nxt with
  | nullptr => []
  | owns (Node _ d nx) => d :: values nx
  end.

End List.
Arguments node : clear implicits.
Arguments threadsafe_list : clear implicits.
End HandOverHand.

(** ** chapter-6.cpp: the demonstration executable *)

Module Demo.
Import HandOverHand.

(** [int] is 32 bits wide.  Overflow of a signed addition is undefined in
    C++; the two's-complement result g++ computes is written out. *)
Definition wrap_int (z : Z) : Z := (z + 2 ^ 31) mod 2 ^ 32 - 2 ^ 31.

(** int reducer(int a, int b) { return a + b; } *)
Definition reducer (a b : Z) : Z := wrap_int (a + b).

(** Standard output is the text written so far. *)
Definition stdout : Type := string.
Definition endl : string := String "010"%char EmptyString.
Definition cout (text : string) : stdout → outcome stdout unit :=
  λ out, Returns tt (out +:+ text).

(** node* getHead(std::vector<int> a): the list is allocated with new and
    never freed; the address of its head node is returned. *)
Definition getHead {S} (a : list Z) : S → outcome S (option (node Z)) :=
  λ s, match push_each a new with
       | Returns _ l => Returns (Some (list_getHead l)) s
       | Throws e _ => Throws e s
       | Blocks => Blocks
       | Undefined => Undefined
       end.

(** The while loop of reduce_list, entered with [current] locked. *)
Fixpoint reduce_loop (f : Z → Z → Z) (current : node Z) (sum : Z)
  : stdout → outcome stdout Z :=
  match current with
  | Node _ current_data nullptr => ret sum
  | Node _ current_data (owns ((Node next_m next_data _) as next)) =>
      match next_m, next_data with
      | Free, Some v =>
          let sum :=
            match current_data with
            | None => f v 0
            | Some _ => f v sum
            end in
          cout (pretty sum) >>> cout endl >>>
          reduce_loop f next sum
      | _, _ => λ _, Undefined
      end
  end.

(** template<typename Function> int reduce_list(node* head, Function f) *)
Definition reduce_list (head : option (node Z)) (f : Z → Z → Z)
  : stdout → outcome stdout Z :=
  match head with
  | None => λ _, Undefined
  | Some h =>
      let sum := 0 in
      if acquire h then reduce_loop f h sum else λ _, Undefined
  end.

(** for (auto i = a.begin(); i != a.end(); ++i) std::cout << *i << ' '; *)
Fixpoint print_values (a : list Z) : stdout → outcome stdout unit :=
  match a with
  | [] => ret tt
  | i :: rest => cout (pretty i) >>> cout " " >>> print_values rest
  end.

(** int main() *)
Definition main : stdout → outcome stdout Z :=
  let a := [] in
  let a := a ++ [7] in
  let a := a ++ [9] in
  let a := a ++ [10] in
  let! head := getHead a in
  (match head with
   | Some _ => cout "HEAD IS AVAILABLE" >>> cout endl
   | None => ret tt
   end) >>>
  let! sum := reduce_list head reducer in
  print_values a >>>
  cout "SUM: " >>> cout (pretty sum) >>> cout endl >>>
  ret 0.

(** The lines of a text: the pieces between line feeds. *)
Fixpoint lines_from (cur : string) (text : string) : list string :=
  match text with
  | EmptyString => match cur with EmptyString => [] | _ => [cur] end
  | String c rest =>
      if Ascii.eqb c "010"%char
      then cur :: lines_from EmptyString rest
      else lines_from (cur +:+ String c EmptyString) rest
  end.
Definition lines (text : string) : list string := lines_from EmptyString text.

End Demo.

(** ** chapter-6.cpp: threadsafe_queue, one mutex, shared_ptr cells *)

Module CoarseQueue.
Section Queue.
Context {T : Type}.

(** [std::queue<std::shared_ptr<T>> data_queue], front first.  The
    condition variable has no state of its own on one thread. *)
Record threadsafe_queue : Type := Mk {
  mut : mutex;
  data_queue : list (shared_ptr T)
}.

Definition mut_ref : mutex_ref threadsafe_queue :=
  MutexRef mut (λ x q, Mk x (data_queue q)).

(** threadsafe_queue() {} *)
Definition new : threadsafe_queue := Mk Free [].

(** data_cond.wait(lk, [this]{return !data_queue.empty();}): with the
    queue empty the caller sleeps, and no other thread will wake it. *)
Definition wait_not_empty : threadsafe_queue → outcome threadsafe_queue unit :=
  λ q, match data_queue q with
       | [] => Blocks
       | _ :: _ => Returns tt q
       end.

(** void wait_and_pop(T& value) *)
Definition wait_and_pop_ref : threadsafe_queue → outcome threadsafe_queue T :=
  lock_guard mut_ref
    (wait_not_empty >>>
     λ q, match data_queue q with
          | Some v :: rest => Returns v (Mk (mut q) rest)
          | _ => Undefined
          end).

(** bool try_pop(T& value): [value] is the caller's variable before the
    call; the result is the flag and the variable after it. *)
Definition try_pop_ref (value : T)
  : threadsafe_queue → outcome threadsafe_queue (bool * T) :=
  lock_guard mut_ref
    (λ q, match data_queue q with
          | [] => Returns (false, value) q
          | Some v :: rest => Returns (true, v) (Mk (mut q) rest)
          | None :: _ => Undefined
          end).

(** std::shared_ptr<T> wait_and_pop() *)
Definition wait_and_pop : threadsafe_queue → outcome threadsafe_queue (shared_ptr T) :=
  lock_guard mut_ref
    (wait_not_empty >>>
     λ q, match data_queue q with
          | res :: rest => Returns res (Mk (mut q) rest)
          | [] => Undefined
          end).

(** std::shared_ptr<T> try_pop() *)
Definition try_pop : threadsafe_queue → outcome threadsafe_queue (shared_ptr T) :=
  lock_guard mut_ref
    (λ q, match data_queue q with
          | [] => Returns None q
          | res :: rest => Returns res (Mk (mut q) rest)
          end).

(** void push(T new_value) *)
Definition push (new_value : T) : threadsafe_queue → outcome threadsafe_queue unit :=
  let data := make_shared new_value in
  lock_guard mut_ref
    (λ q, Returns tt (Mk (mut q) (data_queue q ++ [data]))).

(** bool empty() const *)
Definition empty : threadsafe_queue → outcome threadsafe_queue bool :=
  lock_guard mut_ref
    (λ q, Returns (match data_queue q with [] => true | _ => false end) q).

(** The four ways of taking an item out, and the item each call hands to
    its caller: the handle returned, or the value written through the
    reference when the call reports one. *)
Inductive removal : Type :=
| WaitAndPopRef
| TryPopRef (value : T)
| WaitAndPop
| TryPop.

Definition remove (r : removal)
  : threadsafe_queue → outcome threadsafe_queue (option T) :=
  match r with
  | WaitAndPopRef => let! v := wait_and_pop_ref in ret (Some v)
  | TryPopRef value =>
      let! r := try_pop_ref value in
      ret (if r.1 then Some r.2 else None)
  | WaitAndPop => wait_and_pop
  | TryPop => try_pop
  end.

Fixpoint push_all (vs : list T) : threadsafe_queue → outcome threadsafe_queue unit :=
  match vs with
  | [] => ret tt
  | v :: rest => push v >>> push_all rest
  end.

Fixpoint remove_all (rs : list removal)
  : threadsafe_queue → outcome threadsafe_queue (list (option T)) :=
  match rs with
  | [] => ret []
  | r :: rest =>
      let! x := remove r in
      let! xs := remove_all rest in
      ret (x :: xs)
  end.

End Queue.
Arguments threadsafe_queue : clear implicits.
Arguments removal : clear implicits.
End CoarseQueue.

(** ** chapter-6.cpp: threadsafe_queue, dummy node and two mutexes *)

Module FineQueue.
Section Queue.
Context {T : Type}.

(** Addresses of heap nodes; a null pointer is [None]. *)
Definition loc : Type := positive.

(** struct node { std::shared_ptr<T> data; std::unique_ptr<node> next; } *)
Record node : Type := Node {
  data : shared_ptr T;
  next : option loc
}.

(** [new node]: any address not in use. *)
Class Allocator : Type := {
  alloc : gmap loc node → loc;
  alloc_fresh : ∀ mem, mem !! alloc mem = None
}.

(** The nodes on the heap and the members of the queue object. *)
Record threadsafe_queue : Type := Mk {
  mem : gmap loc node;
  head_mutex : mutex;
  head : option loc;
  tail_mutex : mutex;
  tail : option loc
}.

Definition set_mem (x : gmap loc node) (q : threadsafe_queue) :=
  Mk x (head_mutex q) (head q) (tail_mutex q) (tail q).
Definition set_head (x : option loc) (q : threadsafe_queue) :=
  Mk (mem q) (head_mutex q) x (tail_mutex q) (tail q).
Definition set_tail (x : option loc) (q : threadsafe_queue) :=
  Mk (mem q) (head_mutex q) (head q) (tail_mutex q) x.

Definition head_mutex_ref : mutex_ref threadsafe_queue :=
  MutexRef head_mutex (λ x q, Mk (mem q) x (head q) (tail_mutex q) (tail q)).
Definition tail_mutex_ref : mutex_ref threadsafe_queue :=
  MutexRef tail_mutex (λ x q, Mk (mem q) (head_mutex q) (head q) x (tail q)).

(** Reading and writing through a node pointer: a null or dangling
    pointer is undefined behaviour. *)
Definition load (p : option loc) : threadsafe_queue → outcome threadsafe_queue node :=
  λ q, match p with
       | None => Undefined
       | Some l => match mem q !! l with
                   | Some n => Returns n q
                   | None => Undefined
                   end
       end.

Definition store (p : option loc) (n : node)
  : threadsafe_queue → outcome threadsafe_queue unit :=
  λ q, match p with
       | None => Undefined
       | Some l => match mem q !! l with
                   | Some _ => Returns tt (set_mem (<[l := n]> (mem q)) q)
                   | None => Undefined
                   end
       end.

(** p->data = d; and p->next = nx; *)
Definition set_data (p : option loc) (d : shared_ptr T)
  : threadsafe_queue → outcome threadsafe_queue unit :=
  let! n := load p in store p (Node d (next n)).
Definition set_next (p : option loc) (nx : option loc)
  : threadsafe_queue → outcome threadsafe_queue unit :=
  let! n := load p in store p (Node (data n) nx).

(** ~unique_ptr<node>: deletes the node it owns.  Where the queue does
    it the node's own [next] has been moved from, so one node goes. *)
Definition destroy (p : option loc) : threadsafe_queue → outcome threadsafe_queue unit :=
  λ q, match p with
       | None => Returns tt q
       | Some l => match mem q !! l with
                   | Some _ => Returns tt (set_mem (delete l (mem q)) q)
                   | None => Undefined
                   end
       end.

Context `{Allocator}.

(** new node *)
Definition new_node : threadsafe_queue → outcome threadsafe_queue (option loc) :=
  λ q, let l := alloc (mem q) in
       Returns (Some l) (set_mem (<[l := Node None None]> (mem q)) q).

(** threadsafe_queue(): head(new node), tail(head.get()) {} *)
Definition new : threadsafe_queue :=
  let l := alloc ∅ in
  Mk {[l := Node None None]} Free (Some l) Free (Some l).

(** node* get_tail() *)
Definition get_tail : threadsafe_queue → outcome threadsafe_queue (option loc) :=
  lock_guard tail_mutex_ref (λ q, Returns (tail q) q).

(** std::unique_ptr<node> pop_head() *)
Definition pop_head : threadsafe_queue → outcome threadsafe_queue (option loc) :=
  lock_guard head_mutex_ref
    (let! t := get_tail in
     λ q, if decide (head q = t) then Returns None q
          else
            (let old_head := head q in
             (λ q, Returns tt (set_head None q)) >>>
             let! n := load old_head in
             set_next old_head None >>>
             (λ q, Returns tt (set_head (next n) q)) >>>
             ret old_head) q).

(** std::shared_ptr<T> try_pop() *)
Definition try_pop : threadsafe_queue → outcome threadsafe_queue (shared_ptr T) :=
  let! old_head := pop_head in
  let! res := (match old_head with
               | Some _ => let! n := load old_head in ret (data n)
               | None => ret None
               end) in
  destroy old_head >>>
  ret res.

(** void push(T new_value) *)
Definition push (new_value : T) : threadsafe_queue → outcome threadsafe_queue unit :=
  let new_data := make_shared new_value in
  let! p := new_node in
  let new_tail := p in
  lock_guard tail_mutex_ref
    (let! t := (λ q, Returns (tail q) q) in
     set_data t new_data >>>
     set_next t p >>>
     λ q, Returns tt (set_tail new_tail q)).

End Queue.
Arguments node : clear implicits.
Arguments threadsafe_queue : clear implicits.
Arguments Allocator : clear implicits.

(** One allocator to run the queue with: the first address not in use. *)
Definition first_free {T} : Allocator T :=
  {| alloc := λ mem, fresh (dom mem);
     alloc_fresh := λ mem, proj1 (not_elem_of_dom mem (fresh (dom mem)))
                                 (is_fresh (dom mem)) |}.
End FineQueue.

(** Both queues driven by the same calls. *)
Inductive queue_call (T : Type) : Type :=
| Push (v : T)
| TryPop.
Arguments Push {T} v.
Arguments TryPop {T}.

Section Drivers.
Context {T : Type}.

(** What a call shows its caller: nothing for push, the handle for
    try_pop. *)
Definition coarse_call (c : queue_call T)
  : CoarseQueue.threadsafe_queue T
    → outcome (CoarseQueue.threadsafe_queue T) (option (shared_ptr T)) :=
  match c with
  | Push v => CoarseQueue.push v >>> ret None
  | TryPop => let! r := CoarseQueue.try_pop in ret (Some r)
  end.

Fixpoint coarse_run (cs : list (queue_call T))
  : CoarseQueue.threadsafe_queue T
    → outcome (CoarseQueue.threadsafe_queue T) (list (option (shared_ptr T))) :=
  match cs with
  | [] => ret []
  | c :: rest =>
      let! x := coarse_call c in
      let! xs := coarse_run rest in
      ret (x :: xs)
  end.

Context `{FineQueue.Allocator T}.

Definition fine_call (c : queue_call T)
  : FineQueue.threadsafe_queue T
    → outcome (FineQueue.threadsafe_queue T) (option (shared_ptr T)) :=
  match c with
  | Push v => FineQueue.push v >>> ret None
  | TryPop => let! r := FineQueue.try_pop in ret (Some r)
  end.

Fixpoint fine_run (cs : list (queue_call T))
  : FineQueue.threadsafe_queue T
    → outcome (FineQueue.threadsafe_queue T) (list (option (shared_ptr T))) :=
  match cs with
  | [] => ret []
  | c :: rest =>
      let! x := fine_call c in
      let! xs := fine_run rest in
      ret (x :: xs)
  end.
End Drivers.

(** ** Makefile *)

Module Makefile.

(** The working directory: what each path names. *)
Inductive entry : Type := File | Dir.
Definition fs : Type := gmap string entry.

(** A command line of a rule either succeeds with a new directory content
    or exits with an error, the directory left as the command found it. *)
Definition recipe : Type := gmap string entry → option (gmap string entry).

(** What a run of make comes to: every command succeeded, or a command
    failed and make stopped there (exit status 2); either way with the
    directory it leaves. *)
Inductive result : Type :=
| Succeeds (d : gmap string entry)
| Stops (d : gmap string entry).

Definition left (r : result) : gmap string entry :=
  match r with
  | Succeeds d => d
  | Stops d => d
  end.

(** rm -f path: a missing path is no error, a directory is. *)
Definition rm_f (path : string) : recipe :=
  λ d, match d !! path with
       | None => Some d
       | Some File => Some (delete path d)
       | Some Dir => None
       end.

Inductive target : Type :=
| hello | thread_waiting | run_background | all | clean.

Definition name (t : target) : string :=
  match t with
  | hello => "hello"
  | thread_waiting => "thread-waiting"
  | run_background => "run-background"
  | all => "all"
  | clean => "clean"
  end.

Definition prerequisites (t : target) : list target :=
  match t with
  | all => [hello; thread_waiting; run_background]
  | _ => []
  end.

(** Whether g++ makes an executable of the sources of this repository.
    run-background.cpp declares process_big_object, calls it in foo_move
    and defines it nowhere, so its link fails with an undefined reference;
    hello-world.cpp and thread-waiting.cpp are complete programs. *)
Definition repository_builds (src : string) : bool :=
  if decide (src = "./learn/hello-world.cpp") then true
  else if decide (src = "./learn/thread-waiting.cpp") then true
  else false.

Section Make.
(** [builds src]: g++ compiles and links the source [src]. *)
Variable builds : string → bool.

(** $(CC) $(CFLAGS) -o out src, with CC=g++.  The source has to be there
    and to compile and link, and the output must not name a directory; a
    g++ that fails makes no executable. *)
Definition cc (out src : string) : recipe :=
  λ d, match d !! src with
       | Some File =>
           if builds src then
             match d !! out with
             | Some Dir => None
             | _ => Some (<[out := File]> d)
             end
           else None
       | _ => None
       end.

Definition commands (t : target) : list recipe :=
  match t with
  | hello => [cc "hello" "./learn/hello-world.cpp"]
  | thread_waiting => [cc "thread-wait" "./learn/thread-waiting.cpp"]
  | run_background => [cc "run-background" "./learn/run-background.cpp"]
  | all => []
  | clean => [rm_f "build/bin"]
  end.

Fixpoint run_commands (cs : list recipe) (d : gmap string entry) : result :=
  match cs with
  | [] => Succeeds d
  | c :: rest => match c d with
                 | Some d' => run_commands rest d'
                 | None => Stops d
                 end
  end.

(** No target is .PHONY and none has a prerequisite that is a file of its
    own making, so make runs a target's commands exactly when nothing of
    the target's name exists. *)
Definition remake (t : target) (d : gmap string entry) : result :=
  match d !! name t with
  | Some _ => Succeeds d
  | None => run_commands (commands t) d
  end.

Fixpoint make_all_of (ts : list target) (d : gmap string entry) : result :=
  match ts with
  | [] => Succeeds d
  | t :: rest => match remake t d with
                 | Succeeds d' => make_all_of rest d'
                 | Stops d' => Stops d'
                 end
  end.

(** make t: the prerequisites in order (they have none themselves), then
    the target; the first failing command stops it all. *)
Definition make (t : target) (d : gmap string entry) : result :=
  match make_all_of (prerequisites t) d with
  | Succeeds d' => remake t d'
  | Stops d' => Stops d'
  end.

End Make.

(** .DEFAULT_GOAL := all *)
Definition default_goal : target := all.

(** A checkout with the three sources and nothing built. *)
Definition sources : gmap string entry :=
  {[ "./learn/hello-world.cpp" := File;
     "./learn/thread-waiting.cpp" := File;
     "./learn/run-background.cpp" := File ]}.

End Makefile.

(** ** chapter-3.cpp: the remaining shared-data code *)

Module SharedList.

(** std::list<int> some_list; std::mutex some_mutex; *)
Record globals : Type := Globals {
  some_list : list Z;
  some_mutex : mutex
}.

Definition some_mutex_ref : mutex_ref globals :=
  MutexRef some_mutex (λ x g, Globals (some_list g) x).

(** Both globals as the program starts. *)
Definition initial : globals := Globals [] Free.

(** void add_to_list(int new_value) *)
Definition add_to_list (new_value : Z) : globals → outcome globals unit :=
  lock_guard some_mutex_ref
    (λ g, Returns tt (Globals (some_list g ++ [new_value]) (some_mutex g))).

(** std::find(first, last, val): the position of the first element equal
    to [val], or the length of the list (the end iterator). *)
Fixpoint std_find (l : list Z) (val : Z) : nat :=
  match l with
  | [] => 0%nat
  | x :: rest => if x =? val then 0%nat else S (std_find rest val)
  end.

(** bool list_contains(int val) *)
Definition list_contains (val : Z) : globals → outcome globals bool :=
  lock_guard some_mutex_ref
    (λ g, Returns (negb (std_find (some_list g) val =? length (some_list g))%nat) g).

Fixpoint add_each (vs : list Z) : globals → outcome globals unit :=
  match vs with
  | [] => ret tt
  | v :: rest => add_to_list v >>> add_each rest
  end.

End SharedList.

Module Wrapper.

(** class some_data { int a; std::string b; ... } *)
Record some_data : Type := SomeData { a : Z; b : string }.

(** The objects a [some_data*] of this file can point to. *)
Inductive some_data_ptr : Type := x_data.

(** data_wrapper x; and some_data* unprotected; *)
Record world : Type := World {
  data : some_data;            (* x.data *)
  m : mutex;                   (* x.m *)
  unprotected : option some_data_ptr
}.

Definition m_ref : mutex_ref world :=
  MutexRef m (λ v w, World (data w) v (unprotected w)).

(** template<typename Function> void process_data(Function func), on x *)
Definition process_data (func : some_data_ptr → world → outcome world unit)
  : world → outcome world unit :=
  lock_guard m_ref (func x_data).

(** void malicious_function(some_data& protected_data) *)
Definition malicious_function (protected_data : some_data_ptr)
  : world → outcome world unit :=
  λ w, Returns tt (World (data w) (m w) (Some protected_data)).

Section Foo.
(** void some_data::do_something() is declared only: what it makes of the
    object is left open; [locked] is the state of x.m it runs under. *)
Variable do_something : mutex → some_data → some_data.

Definition call_do_something (p : option some_data_ptr)
  : world → outcome world unit :=
  λ w, match p with
       | None => Undefined
       | Some x_data =>
           Returns tt (World (do_something (m w) (data w)) (m w) (unprotected w))
       end.

(** void foo() *)
Definition foo : world → outcome world unit :=
  process_data malicious_function >>>
  λ w, call_do_something (unprotected w) w.
End Foo.

End Wrapper.

Module StackCopy.
Import Stack.
Section Copy.
Context {T : Type}.

(** threadsafe_stack(const threadsafe_stack& other): runs on [other],
    whose mutex it takes, and hands back the new stack. *)
Definition copy : threadsafe_stack T → outcome (threadsafe_stack T) (threadsafe_stack T) :=
  lock_guard m_ref (λ other, Returns (Mk (data other) Free) other).

Fixpoint push_each (vs : list T)
  : threadsafe_stack T → outcome (threadsafe_stack T) unit :=
  match vs with
  | [] => ret tt
  | v :: rest => push v >>> push_each rest
  end.

(** [n] calls of pop() and what they return, in order. *)
Fixpoint pop_times (n : nat)
  : threadsafe_stack T → outcome (threadsafe_stack T) (list (shared_ptr T)) :=
  match n with
  | O => ret []
  | S k =>
      let! x := pop in
      let! xs := pop_times k in
      ret (x :: xs)
  end.

End Copy.
End StackCopy.

(** ** chapter-6.cpp: the first threadsafe_queue, values in a std::queue *)

Module ValueQueue.
Section Queue.
Context {T : Type}.

(** [std::queue<T> data_queue], front first. *)
Record threadsafe_queue : Type := Mk {
  mut : mutex;
  data_queue : list T
}.

Definition mut_ref : mutex_ref threadsafe_queue :=
  MutexRef mut (λ x q, Mk x (data_queue q)).

(** threadsafe_queue() {} *)
Definition new : threadsafe_queue := Mk Free [].

(** void push(T new_value) *)
Definition push (new_value : T) : threadsafe_queue → outcome threadsafe_queue unit :=
  lock_guard mut_ref
    (λ q, Returns tt (Mk (mut q) (data_queue q ++ [new_value]))).

(** data_cond.wait(lk, [this]{return !data_queue.empty();}) *)
Definition wait_not_empty : threadsafe_queue → outcome threadsafe_queue unit :=
  λ q, match data_queue q with
       | [] => Blocks
       | _ :: _ => Returns tt q
       end.

(** void wait_and_pop(T& value) *)
Definition wait_and_pop_ref : threadsafe_queue → outcome threadsafe_queue T :=
  lock_guard mut_ref
    (wait_not_empty >>>
     λ q, match data_queue q with
          | v :: rest => Returns v (Mk (mut q) rest)
          | [] => Undefined
          end).

(** std::shared_ptr<T> wait_and_pop().  The shared_ptr is built here, under
    the lock and before data_queue.pop(): [failure] is the exception that
    construction throws in this call, if it throws (the case the comment
    in push is about).  The throw leaves through the lock with the front
    still in the queue. *)
Definition wait_and_pop (failure : option exception)
  : threadsafe_queue → outcome threadsafe_queue (shared_ptr T) :=
  lock_guard mut_ref
    (wait_not_empty >>>
     λ q, match data_queue q with
          | v :: rest =>
              match failure with
              | Some e => Throws e q
              | None =>
                  let res := make_shared v in
                  Returns res (Mk (mut q) rest)
              end
          | [] => Undefined
          end).

(** bool try_pop(T& value) *)
Definition try_pop_ref (value : T)
  : threadsafe_queue → outcome threadsafe_queue (bool * T) :=
  lock_guard mut_ref
    (λ q, match data_queue q with
          | [] => Returns (false, value) q
          | v :: rest => Returns (true, v) (Mk (mut q) rest)
          end).

(** std::shared_ptr<T> try_pop(): on an empty queue it returns before
    anything is built; otherwise the shared_ptr is built as in
    wait_and_pop, with the same [failure]. *)
Definition try_pop (failure : option exception)
  : threadsafe_queue → outcome threadsafe_queue (shared_ptr T) :=
  lock_guard mut_ref
    (λ q, match data_queue q with
          | [] => Returns None q
          | v :: rest =>
              match failure with
              | Some e => Throws e q
              | None =>
                  let res := make_shared v in
                  Returns res (Mk (mut q) rest)
              end
          end).

(** bool empty() const *)
Definition empty : threadsafe_queue → outcome threadsafe_queue bool :=
  lock_guard mut_ref
    (λ q, Returns (match data_queue q with [] => true | _ => false end) q).

End Queue.
Arguments threadsafe_queue : clear implicits.
End ValueQueue.

(** The member functions the two single-mutex queues share, and what a
    call shows its caller. *)
Inductive member_call (T : Type) : Type :=
| CallPush (v : T)
| CallWaitAndPopRef
| CallTryPopRef (value : T)
| CallWaitAndPop
| CallTryPop
| CallEmpty.
Arguments CallPush {T} v.
Arguments CallWaitAndPopRef {T}.
Arguments CallTryPopRef {T} value.
Arguments CallWaitAndPop {T}.
Arguments CallTryPop {T}.
Arguments CallEmpty {T}.

Inductive answer (T : Type) : Type :=
| Done                              (* void *)
| Written (value : T)               (* the reference after the call *)
| Flagged (ok : bool) (value : T)   (* the bool, and the reference *)
| Handle (p : shared_ptr T)
| Truth (b : bool).
Arguments Done {T}.
Arguments Written {T} value.
Arguments Flagged {T} ok value.
Arguments Handle {T} p.
Arguments Truth {T} b.

Section MemberCalls.
Context {T : Type}.

(** A call together with the exception that the construction of a
    shared_ptr throws in it, if there is one and it throws.  The first
    queue builds the shared_ptr in wait_and_pop() and try_pop(); the second
    builds it in push. *)
Definition value_call (c : member_call T * option exception)
  : ValueQueue.threadsafe_queue T
    → outcome (ValueQueue.threadsafe_queue T) (answer T) :=
  match c.1 with
  | CallPush v => ValueQueue.push v >>> ret Done
  | CallWaitAndPopRef => let! v := ValueQueue.wait_and_pop_ref in ret (Written v)
  | CallTryPopRef value =>
      let! r := ValueQueue.try_pop_ref value in ret (Flagged r.1 r.2)
  | CallWaitAndPop => let! p := ValueQueue.wait_and_pop c.2 in ret (Handle p)
  | CallTryPop => let! p := ValueQueue.try_pop c.2 in ret (Handle p)
  | CallEmpty => let! e := ValueQueue.empty in ret (Truth e)
  end.

(** push of the second queue, the construction of the cell included:
    std::make_shared runs first, outside the lock, and when it throws
    nothing has been touched; otherwise the rest of push follows. *)
Definition cell_push (failure : option exception) (new_value : T)
  : CoarseQueue.threadsafe_queue T
    → outcome (CoarseQueue.threadsafe_queue T) unit :=
  match failure with
  | Some e => λ q, Throws e q
  | None => CoarseQueue.push new_value
  end.

Definition cell_call (c : member_call T * option exception)
  : CoarseQueue.threadsafe_queue T
    → outcome (CoarseQueue.threadsafe_queue T) (answer T) :=
  match c.1 with
  | CallPush v => cell_push c.2 v >>> ret Done
  | CallWaitAndPopRef => let! v := CoarseQueue.wait_and_pop_ref in ret (Written v)
  | CallTryPopRef value =>
      let! r := CoarseQueue.try_pop_ref value in ret (Flagged r.1 r.2)
  | CallWaitAndPop => let! p := CoarseQueue.wait_and_pop in ret (Handle p)
  | CallTryPop => let! p := CoarseQueue.try_pop in ret (Handle p)
  | CallEmpty => let! e := CoarseQueue.empty in ret (Truth e)
  end.

(** A call in which no construction throws. *)
Definition unfailing (c : member_call T) : member_call T * option exception :=
  (c, None).

(** Calls in a row: the answers so far, until one does not return. *)
Fixpoint run_calls {S A C} (call : C → S → outcome S A) (cs : list C)
  : S → outcome S (list A) :=
  match cs with
  | [] => ret []
  | c :: rest =>
      let! x := call c in
      let! xs := run_calls call rest in
      ret (x :: xs)
  end.

(** What is left of an outcome when the object itself is not looked at. *)
Definition seen {S A} (o : outcome S A) : option (A + exception) :=
  match o with
  | Returns a _ => Some (inl a)
  | Throws e _ => Some (inr e)
  | Blocks => None
  | Undefined => None
  end.

Definition is_undefined {S A} (o : outcome S A) : bool :=
  match o with Undefined => true | _ => false end.

End MemberCalls.

(** ** chapter-6.cpp: queue with a dummy node, no locks *)

Module DummyQueue.
Section Queue.
Context {T : Type}.

Abbreviation loc := FineQueue.loc.
Abbreviation node := (FineQueue.node T).

(** std::unique_ptr<node> head; node* tail; and the nodes on the heap. *)
Record queue : Type := Mk {
  mem : gmap loc node;
  head : option loc;
  tail : option loc
}.

Definition load (p : option loc) : queue → outcome queue node :=
  λ q, match p with
       | None => Undefined
       | Some l => match mem q !! l with
                   | Some n => Returns n q
                   | None => Undefined
                   end
       end.

Definition store (p : option loc) (n : node) : queue → outcome queue unit :=
  λ q, match p with
       | None => Undefined
       | Some l => match mem q !! l with
                   | Some _ => Returns tt (Mk (<[l := n]> (mem q)) (head q) (tail q))
                   | None => Undefined
                   end
       end.

(** ~unique_ptr<node> on a node whose [next] has been moved from. *)
Definition destroy (p : option loc) : queue → outcome queue unit :=
  λ q, match p with
       | None => Returns tt q
       | Some l => match mem q !! l with
                   | Some _ => Returns tt (Mk (delete l (mem q)) (head q) (tail q))
                   | None => Undefined
                   end
       end.

Context `{!FineQueue.Allocator T}.

(** queue(): head(new node), tail(head.get()) {} *)
Definition new : queue :=
  let l := FineQueue.alloc ∅ in
  Mk {[l := FineQueue.Node None None]} (Some l) (Some l).

(** std::shared_ptr<T> try_pop() *)
Definition try_pop : queue → outcome queue (shared_ptr T) :=
  λ q, if decide (head q = tail q) then Returns None q
       else
         (let! n := load (head q) in
          let res := FineQueue.data n in
          let old_head := head q in
          (λ q, Returns tt (Mk (mem q) None (tail q))) >>>
          let! n' := load old_head in
          store old_head (FineQueue.Node (FineQueue.data n') None) >>>
          (λ q, Returns tt (Mk (mem q) (FineQueue.next n') (tail q))) >>>
          destroy old_head >>>
          ret res) q.

(** void push(T new_value) *)
Definition push (new_value : T) : queue → outcome queue unit :=
  let new_data := make_shared new_value in
  let! p := (λ q, let l := FineQueue.alloc (mem q) in
                  Returns (Some l)
                    (Mk (<[l := FineQueue.Node None None]> (mem q)) (head q) (tail q))) in
  let! t := (λ q, Returns (tail q) q) in
  (let! n := load t in store t (FineQueue.Node new_data (FineQueue.next n))) >>>
  let new_tail := p in
  (let! n := load t in store t (FineQueue.Node (FineQueue.data n) p)) >>>
  λ q, Returns tt (Mk (mem q) (head q) new_tail).

Definition dummy_call (c : queue_call T)
  : queue → outcome queue (option (shared_ptr T)) :=
  match c with
  | Push v => push v >>> ret None
  | TryPop => let! r := try_pop in ret (Some r)
  end.

End Queue.
Arguments queue : clear implicits.
End DummyQueue.

(** ** chapter-6.cpp: the single-threaded queue without a dummy node *)

Module SimpleQueue.
Section Queue.
Context {T : Type}.

Definition loc : Type := positive.

(** struct node { T data; std::unique_ptr<node> next; node(T data_); } *)
Record node : Type := Node {
  data : T;
  next : option loc
}.

(** A [node*] member: the constructor queue() {} gives [tail] no value, and
    reading a pointer that has none is undefined. *)
Inductive raw_ptr : Type :=
| Indeterminate
| Pointer (p : option loc).

(** The nodes alive, the addresses of the nodes deleted so far, and the
    two members.  A pointer to a deleted node stays invalid whatever is
    allocated later, so no address is handed out twice. *)
Record queue : Type := Mk {
  mem : gmap loc node;
  freed : gset loc;
  head : option loc;
  tail : raw_ptr
}.

(** [new node(...)]: any address never used before. *)
Class Allocator : Type := {
  alloc : gset loc → loc;
  alloc_fresh : ∀ used, alloc used ∉ used
}.

Definition load (p : option loc) : queue → outcome queue node :=
  λ q, match p with
       | None => Undefined
       | Some l => match mem q !! l with
                   | Some n => Returns n q
                   | None => Undefined
                   end
       end.

Definition store (p : option loc) (n : node) : queue → outcome queue unit :=
  λ q, match p with
       | None => Undefined
       | Some l =>
           match mem q !! l with
           | Some _ => Returns tt (Mk (<[l := n]> (mem q)) (freed q) (head q) (tail q))
           | None => Undefined
           end
       end.

(** ~unique_ptr<node> on a node whose [next] has been moved from. *)
Definition destroy (p : option loc) : queue → outcome queue unit :=
  λ q, match p with
       | None => Returns tt q
       | Some l =>
           match mem q !! l with
           | Some _ =>
               Returns tt (Mk (delete l (mem q)) ({[l]} ∪ freed q) (head q) (tail q))
           | None => Undefined
           end
       end.

(** queue() {} *)
Definition new : queue := Mk ∅ ∅ None Indeterminate.

(** std::shared_ptr<T> try_pop() *)
Definition try_pop : queue → outcome queue (shared_ptr T) :=
  λ q, match head q with
       | None => Returns None q
       | Some _ =>
           (let! n := load (head q) in
            let res := make_shared (data n) in
            let old_head := head q in
            (λ q, Returns tt (Mk (mem q) (freed q) None (tail q))) >>>
            let! n' := load old_head in
            store old_head (Node (data n') None) >>>
            (λ q, Returns tt (Mk (mem q) (freed q) (next n') (tail q))) >>>
            destroy old_head >>>
            ret res) q
       end.

Context `{Allocator}.

(** void push(T new_value) *)
Definition push (new_value : T) : queue → outcome queue unit :=
  let! p := (λ q, let l := alloc (dom (mem q) ∪ freed q) in
                  Returns (Some l)
                    (Mk (<[l := Node new_value None]> (mem q)) (freed q)
                        (head q) (tail q))) in
  let new_tail := p in
  (λ q, match tail q with
        | Indeterminate => Undefined
        | Pointer None =>
            Returns tt (Mk (mem q) (freed q) p (tail q))
        | Pointer (Some t) =>
            (let! n := load (Some t) in store (Some t) (Node (data n) p)) q
        end) >>>
  λ q, Returns tt (Mk (mem q) (freed q) (head q) (Pointer new_tail)).

Fixpoint push_each (vs : list T) : queue → outcome queue unit :=
  match vs with
  | [] => ret tt
  | v :: rest => push v >>> push_each rest
  end.

Fixpoint try_pop_times (n : nat) : queue → outcome queue (list (shared_ptr T)) :=
  match n with
  | O => ret []
  | S k =>
      let! x := try_pop in
      let! xs := try_pop_times k in
      ret (x :: xs)
  end.

End Queue.
Arguments node : clear implicits.
Arguments queue : clear implicits.

Definition first_unused : Allocator :=
  {| alloc := λ used, fresh used;
     alloc_fresh := λ used, is_fresh used |}.
End SimpleQueue.

(** * Properties *)

(** ** threadsafe_stack *)

Module StackProps.
Import Stack.

(** C3. On a newly constructed stack both pop overloads throw empty_stack,
    which is not a logic_error, and leave the stack as constructed (empty,
    mutex released), so a second pop throws the same again; after one
    push of [v], either pop hands back [v] and the stack is as constructed
    again. *)
Theorem pop_empty_then_one_push {T} (v : T) :
  (pop (T := T) new = Throws empty_stack new
   ∧ pop_ref (T := T) new = Throws empty_stack new
   ∧ (∀ what, empty_stack ≠ logic_error what)
   ∧ empty (T := T) new = Returns true new
   ∧ (∀ s, pop (T := T) new = Throws empty_stack s →
           pop s = Throws empty_stack s ∧ pop_ref s = Throws empty_stack s))
  ∧ ∃ s1, push v new = Returns tt s1
          ∧ data s1 = [v]
          ∧ pop s1 = Returns (make_shared v) new
          ∧ pop_ref s1 = Returns v new.
Proof.
  split.
  - split; [reflexivity|]. split; [reflexivity|].
    split; [discriminate|]. split; [reflexivity|].
    intros s Hs. injection Hs as <-. split; reflexivity.
  - eexists. repeat split; reflexivity.
Qed.

End StackProps.

(** ** hierarchical_mutex *)

Module HierarchyProps.
Import Hierarchy.

(** A thread that holds no hierarchical mutex yet, at the start rank, with
    the three mutexes at the ranks the file declares. *)
Definition at_start (w : world) : Prop :=
  this_thread_hierarchy_value w = ULONG_MAX
  ∧ (∀ i, internal_mutex (get i w) = Free)
  ∧ hierarchy_value (high w) = 10000
  ∧ hierarchy_value (low w) = 5000
  ∧ hierarchy_value (other w) = 100.

(** C4. From the start rank ULONG_MAX, thread_b takes other_mutex (rank
    100) and its call of high_level_func throws the hierarchy violation at
    the lock of high_level_mutex (rank 10000), which leaves thread_b as
    that logic_error; thread_a returns normally. *)
Theorem thread_b_violates_thread_a_succeeds
    (do_low_level_stuff : Z) (high_level_stuff : Z → unit)
    (do_other_stuff : unit) (w : world) :
  at_start w →
  (∃ w1, hlock other_mutex w = Returns tt w1
         ∧ this_thread_hierarchy_value w1 = 100
         ∧ hlock high_level_mutex w1 = Throws violation w1
         ∧ high_level_func do_low_level_stuff high_level_stuff w1
           = Throws violation w1
         ∧ ∃ w2, thread_b do_low_level_stuff high_level_stuff do_other_stuff w
                 = Throws violation w2
                 ∧ this_thread_hierarchy_value w2 = ULONG_MAX)
  ∧ ∃ w3, thread_a do_low_level_stuff high_level_stuff w = Returns tt w3
          ∧ this_thread_hierarchy_value w3 = ULONG_MAX.
Proof.
  intros (Ht & Hfree & Hh & Hl & Ho).
  pose proof (Hfree high_level_mutex) as Fh.
  pose proof (Hfree low_level_mutex) as Fl.
  pose proof (Hfree other_mutex) as Fo.
  destruct w as [t [mh vh ph] [ml vl pl] [mo vo po]].
  simpl in *. subst.
  split.
  - eexists. split; [reflexivity|]. split; [reflexivity|].
    split; [reflexivity|]. split; [reflexivity|].
    eexists. split; reflexivity.
  - vm_compute. destruct (high_level_stuff do_low_level_stuff).
    eexists. split; reflexivity.
Qed.

Lemma thread_b_violates_thread_a_succeeds_witness :
  at_start initial
  ∧ (∃ w1, hlock other_mutex initial = Returns tt w1
           ∧ this_thread_hierarchy_value w1 = 100
           ∧ hlock high_level_mutex w1 = Throws violation w1
           ∧ high_level_func 0 (λ _, tt) w1 = Throws violation w1
           ∧ ∃ w2, thread_b 0 (λ _, tt) tt initial = Throws violation w2
                   ∧ this_thread_hierarchy_value w2 = ULONG_MAX)
  ∧ ∃ w3, thread_a 0 (λ _, tt) initial = Returns tt w3
          ∧ this_thread_hierarchy_value w3 = ULONG_MAX.
Proof.
  assert (Hstart : at_start initial).
  { repeat split; try reflexivity. intros []; reflexivity. }
  split; [exact Hstart|].
  exact (thread_b_violates_thread_a_succeeds 0 (λ _, tt) tt initial Hstart).
Defined.

(** C10. When lock() on a hierarchical mutex returns, the unlock() that
    follows it directly returns too and puts the thread's rank back to
    what it was before the lock(); the mutex is free again and the same
    lock() succeeds once more. *)
Theorem lock_unlock_restores_rank (i : mutex_id) (w w1 : world) :
  hlock i w = Returns tt w1 →
  ∃ w2, hunlock i w1 = Returns tt w2
        ∧ this_thread_hierarchy_value w2 = this_thread_hierarchy_value w
        ∧ internal_mutex (get i w2) = Free
        ∧ hierarchy_value (get i w2) = hierarchy_value (get i w)
        ∧ ∃ w3, hlock i w2 = Returns tt w3.
Proof.
  unfold hlock, hunlock, bind, check_for_hierarchy_violation, mutex_lock,
    mutex_unlock, update_hierarchy_value.
  destruct (this_thread_hierarchy_value w <=? hierarchy_value (get i w))
    eqn:Hle; [discriminate|].
  simpl.
  destruct (internal_mutex (get i w)) eqn:Hm; [|discriminate].
  intros [= <-].
  destruct w as [t [mh vh ph] [ml vl pl] [mo vo po]].
  destruct i; simpl in *; subst;
    (eexists; split; [reflexivity|]; simpl;
     repeat (split; [reflexivity|]); rewrite Hle; simpl;
     eexists; reflexivity).
Qed.

Lemma lock_unlock_restores_rank_witness :
  ∃ w1, hlock high_level_mutex initial = Returns tt w1
        ∧ ∃ w2, hunlock high_level_mutex w1 = Returns tt w2
                ∧ this_thread_hierarchy_value w2 = ULONG_MAX.
Proof.
  eexists. split; [reflexivity|].
  destruct (lock_unlock_restores_rank high_level_mutex initial _ eq_refl)
    as (w2 & H2 & Hr & _).
  exists w2. split; [exact H2 | exact Hr].
Defined.

End HierarchyProps.

(** ** The demonstration executable *)

Module DemoProps.
Import HandOverHand Demo.

(** What main writes, line by line. *)
Lemma main_lines :
  ∃ out, main EmptyString = Returns 0 out
         ∧ lines out
           = ["HEAD IS AVAILABLE"; "10"; "19"; "26"; "7 9 10 SUM: 26"].
Proof. eexists. split; vm_compute; reflexivity. Qed.

(** C1, as stated: the lines 9, 16 and 26 do not come out of main in this
    order (nor in any other: 9 and 16 are never printed), and no line of
    the output is "SUM: 26". *)
Lemma main_does_not_print_9_16_26 :
  ¬ ∃ code out, main EmptyString = Returns code out
                ∧ (["9"; "16"; "26"] `sublist_of` lines out
                   ∨ "SUM: 26" ∈ lines out).
Proof.
  intros (code & out & Hmain & Hclaim).
  destruct main_lines as (out' & Hmain' & Hlines).
  rewrite Hmain' in Hmain. injection Hmain as _ <-.
  rewrite Hlines in Hclaim.
  destruct Hclaim as [Hsub | Hin].
  - apply sublist_cons_l in Hsub as (k1 & k2 & Hk & _).
    assert (Hin : "9" ∈ k1 ++ "9" :: k2) by set_solver.
    rewrite <- Hk in Hin.
    repeat (apply elem_of_cons in Hin as [Hin | Hin]; [discriminate|]).
    by apply elem_of_nil in Hin.
  - repeat (apply elem_of_cons in Hin as [Hin | Hin]; [discriminate|]).
    by apply elem_of_nil in Hin.
Qed.

(** C1, amended. main writes the line HEAD IS AVAILABLE, then the running
    totals 10, 19 and 26 on a line each, then the input values "7 9 10 "
    and, on that same line, "SUM: 26"; it returns 0. *)
Theorem main_output :
  main EmptyString
  = Returns 0
      ("HEAD IS AVAILABLE" +:+ endl +:+
       "10" +:+ endl +:+ "19" +:+ endl +:+ "26" +:+ endl +:+
       "7 9 10 SUM: 26" +:+ endl).
Proof. vm_compute. reflexivity. Qed.

(** C2. The list built from 7, 9, 10 pushed at the front has an empty
    sentinel in front of 10, 9, 7; reduce_list with reducer returns 26 on
    it, and the last line main writes reports 26 as the sum. *)
Theorem reduce_list_7_9_10 :
  ∃ head, getHead [7; 9; 10] EmptyString = Returns (Some head) EmptyString
          ∧ data head = None
          ∧ values (next head) = [Some 10; Some 9; Some 7]
          ∧ (∃ out, reduce_list (Some head) reducer EmptyString
                    = Returns 26 out)
          ∧ ∃ out, main EmptyString = Returns 0 out
                   ∧ last (lines out) = Some "7 9 10 SUM: 26".
Proof.
  eexists. split; [reflexivity|]. split; [reflexivity|].
  split; [reflexivity|]. split.
  - eexists. vm_compute. reflexivity.
  - eexists. split; vm_compute; reflexivity.
Qed.

End DemoProps.

(** ** Makefile *)

Module MakefileProps.
Import Makefile.

(** Whatever g++ does, and whether clean succeeds or not, a make clean
    leaves every path other than build/bin as it found it. *)
Lemma clean_leaves_other_paths (builds : string → bool)
    (d : gmap string entry) (path : string) :
  path ≠ "build/bin" → left (make builds clean d) !! path = d !! path.
Proof.
  intros Hne. unfold make, remake. simpl.
  destruct (d !! "clean"); [done|].
  unfold rm_f. destruct (d !! "build/bin") as [[]|] eqn:Hb; simpl; try done.
  by rewrite lookup_delete_ne.
Qed.

(** clean touches nothing but the path build/bin. *)
Lemma clean_only_build_bin (builds : string → bool)
    (d d' : gmap string entry) (path : string) :
  make builds clean d = Succeeds d' → path ≠ "build/bin" →
  d' !! path = d !! path.
Proof.
  intros Hclean Hne.
  pose proof (clean_leaves_other_paths builds d path Hne) as H.
  by rewrite Hclean in H.
Qed.

(** C8, on the code.  From a checkout with nothing built, the default goal
    builds hello and thread-wait and stops at run-background, whose link
    fails; make clean on what it leaves succeeds and changes nothing, the
    executables still there.  And on any directory, whatever g++ builds:
    make clean leaves hello, thread-wait and run-background as they
    were. *)
Theorem clean_leaves_executables :
  (∃ d1, make repository_builds default_goal sources = Stops d1
         ∧ d1 !! "hello" = Some File
         ∧ d1 !! "thread-wait" = Some File
         ∧ d1 !! "run-background" = None
         ∧ make repository_builds clean d1 = Succeeds d1)
  ∧ ∀ (builds : string → bool) (d : gmap string entry),
      left (make builds clean d) !! "hello" = d !! "hello"
      ∧ left (make builds clean d) !! "thread-wait" = d !! "thread-wait"
      ∧ left (make builds clean d) !! "run-background" = d !! "run-background".
Proof.
  split.
  - eexists. split; [vm_compute; reflexivity|].
    repeat split; vm_compute; reflexivity.
  - intros builds d.
    repeat split; by apply clean_leaves_other_paths.
Qed.

End MakefileProps.

(** ** threadsafe_list *)

Module ListProps.
Import HandOverHand.

Section Chains.
Context {T : Type}.

(** The chain behind the sentinel that holds [vs], front first, every
    mutex free. *)
Fixpoint chain_of (vs : list T) : unique_ptr (T := T) :=
  match vs with
  | [] => nullptr
  | v :: rest => owns (Node Free (make_shared v) (chain_of rest))
  end.

Definition list_of (vs : list T) : threadsafe_list T :=
  List (Node Free None (chain_of vs)).

(** The action handed to for_each to see what it visits, in order. *)
Definition visit (v : T) (seen : list T) : list T := seen ++ [v].

Lemma new_is_list_of : new = list_of [].
Proof. reflexivity. Qed.

Lemma push_front_list_of (v : T) (vs : list T) :
  push_front v (list_of vs) = Returns tt (list_of (v :: vs)).
Proof. reflexivity. Qed.

Lemma push_each_list_of (a vs : list T) :
  push_each a (list_of vs) = Returns tt (list_of (rev a ++ vs)).
Proof.
  revert vs. induction a as [|i a IH]; intros vs; [reflexivity|].
  simpl. unfold bind. rewrite push_front_list_of, IH.
  by rewrite <- app_assoc.
Qed.

Lemma for_each_loop_chain {A} (f : T → A → A) (vs : list T) (a : A) :
  for_each_loop f (chain_of vs) a = Some (foldl (λ acc v, f v acc) a vs).
Proof.
  revert a. induction vs as [|v vs IH]; intros a; [reflexivity|].
  simpl. apply IH.
Qed.

Lemma foldl_visit (vs seen : list T) :
  foldl (λ acc v, visit v acc) seen vs = seen ++ vs.
Proof.
  revert seen. induction vs as [|v vs IH]; intros seen; simpl.
  - by rewrite app_nil_r.
  - rewrite IH. unfold visit. by rewrite <- app_assoc.
Qed.

Lemma for_each_visit (vs : list T) :
  for_each visit [] (list_of vs) = Returns vs (list_of vs).
Proof.
  unfold for_each. simpl. by rewrite for_each_loop_chain, foldl_visit.
Qed.

Lemma remove_if_loop_chain (p : T → bool) (vs : list T) :
  remove_if_loop p (chain_of vs)
  = Some (chain_of (filter (λ v, p v = false) vs)).
Proof.
  induction vs as [|v vs IH]; [reflexivity|].
  simpl. destruct (p v) eqn:Hp.
  - rewrite IH. by rewrite filter_cons_False by congruence.
  - rewrite IH. by rewrite filter_cons_True by done.
Qed.

Lemma remove_if_list_of (p : T → bool) (vs : list T) :
  remove_if p (list_of vs)
  = Returns tt (list_of (filter (λ v, p v = false) vs)).
Proof. unfold remove_if. simpl. by rewrite remove_if_loop_chain. Qed.

End Chains.

(** C7. Pushing 7, 9, 10 at the front makes for_each visit 10, 9, 7.  For
    a list built by pushing any values: remove_if with the always-true
    predicate leaves a list on which for_each visits nothing; remove_if
    with any predicate [p], and so with the test for one value [x], leaves
    a list on which for_each visits what it visited before, in the same
    order, without the values [p] holds for (without the [x]s). *)
Theorem push_traverse_remove {T} `{EqDecision T} (a : list T)
    (p : T → bool) (x : T) :
  (∃ l, push_each [7; 9; 10] new = Returns tt l
        ∧ for_each visit [] l = Returns [10; 9; 7] l)
  ∧ ∃ l before,
      push_each a new = Returns tt l
      ∧ for_each visit [] l = Returns before l
      ∧ before = rev a
      ∧ (∃ l', remove_if (λ _, true) l = Returns tt l'
               ∧ for_each visit [] l' = Returns [] l')
      ∧ (∃ l', remove_if p l = Returns tt l'
               ∧ for_each visit [] l'
                 = Returns (filter (λ v, p v = false) before) l')
      ∧ (∃ l', remove_if (λ v, bool_decide (v = x)) l = Returns tt l'
               ∧ for_each visit [] l'
                 = Returns (filter (λ v, v ≠ x) before) l').
Proof.
  split.
  - eexists. split; reflexivity.
  - exists (list_of (rev a)), (rev a).
    split; [by rewrite new_is_list_of, push_each_list_of, app_nil_r|].
    split; [apply for_each_visit|]. split; [done|].
    split; [|split].
    + eexists. split; [apply remove_if_list_of|].
      rewrite for_each_visit. f_equal.
      induction (rev a) as [|v vs IH]; [done|].
      by rewrite filter_cons_False by done.
    + eexists. split; [apply remove_if_list_of|]. apply for_each_visit.
    + eexists. split; [apply remove_if_list_of|].
      rewrite for_each_visit. f_equal.
      apply list_filter_iff. intros v.
      rewrite bool_decide_eq_false. done.
Qed.

End ListProps.

(** ** The coarse-grained queue *)

Module CoarseQueueProps.
Import CoarseQueue.

Section Fifo.
Context {T : Type}.

Lemma push_free (v : T) (l : list (shared_ptr T)) :
  push v (Mk Free l) = Returns tt (Mk Free (l ++ [make_shared v])).
Proof. reflexivity. Qed.

Lemma try_pop_nil :
  try_pop (T := T) (Mk Free []) = Returns None (Mk Free []).
Proof. reflexivity. Qed.

Lemma try_pop_cons (x : shared_ptr T) (l : list (shared_ptr T)) :
  try_pop (Mk Free (x :: l)) = Returns x (Mk Free l).
Proof. reflexivity. Qed.

Lemma push_all_free (vs : list T) (l : list (shared_ptr T)) :
  push_all vs (Mk Free l) = Returns tt (Mk Free (l ++ (make_shared <$> vs))).
Proof.
  revert l. induction vs as [|v vs IH]; intros l; simpl.
  - unfold ret. by rewrite app_nil_r.
  - unfold bind. rewrite push_free, IH. by rewrite <- app_assoc.
Qed.

Lemma remove_front (r : removal T) (v : T) (l : list (shared_ptr T)) :
  remove r (Mk Free (make_shared v :: l)) = Returns (Some v) (Mk Free l).
Proof. destruct r; reflexivity. Qed.

Lemma remove_all_free (rs : list (removal T)) (vs : list T)
    (l : list (shared_ptr T)) :
  length rs = length vs →
  remove_all rs (Mk Free ((make_shared <$> vs) ++ l))
  = Returns (Some <$> vs) (Mk Free l).
Proof.
  revert vs. induction rs as [|r rs IH]; intros [|v vs] Hlen;
    try discriminate; [reflexivity|].
  simpl. unfold bind at 1. rewrite remove_front.
  unfold bind. rewrite IH by (simpl in Hlen; lia). reflexivity.
Qed.

End Fifo.

(** C6. N values pushed into a new queue and then N removals, each by any
    of wait_and_pop and try_pop in either overload: every removal returns,
    they hand back the pushed values in the order of the pushes, and the
    queue is empty again. *)
Theorem pushes_then_removals_fifo {T} (vs : list T) (rs : list (removal T)) :
  length rs = length vs →
  (push_all vs >>> remove_all rs) new = Returns (Some <$> vs) new.
Proof.
  intros Hlen. unfold bind, new.
  rewrite push_all_free. simpl.
  rewrite <- (app_nil_r (make_shared <$> vs)).
  by apply remove_all_free.
Qed.

Lemma pushes_then_removals_fifo_witness :
  (push_all [3; 1; 2; 5] >>>
   remove_all [WaitAndPopRef; TryPopRef 0; WaitAndPop; TryPop]) new
  = Returns [Some 3; Some 1; Some 2; Some 5] new.
Proof.
  apply (pushes_then_removals_fifo [3; 1; 2; 5]
           [WaitAndPopRef; TryPopRef 0; WaitAndPop; TryPop]).
  reflexivity.
Defined.

End CoarseQueueProps.

(** ** The fine-grained queue *)

Module FineQueueProps.
Import FineQueue.

Section Representation.
Context {T : Type}.

(** Following next links from [p] through nodes that hold the values [vs],
    in this order, ends at [q]. *)
Fixpoint lseg (m : gmap loc (node T)) (p : loc) (vs : list T) (q : loc) : Prop :=
  match vs with
  | [] => p = q
  | v :: rest =>
      ∃ p', m !! p = Some (Node (make_shared v) (Some p')) ∧ lseg m p' rest q
  end.

(** The invariants listed after the class: tail->next and tail->data are
    null, the next links lead from head to tail, and head is tail exactly
    when no value is held. *)
Definition invariant (q : threadsafe_queue T) : Prop :=
  ∃ h t vs,
    head q = Some h ∧ tail q = Some t
    ∧ (∃ n, mem q !! t = Some n ∧ next n = None ∧ data n = None)
    ∧ lseg (mem q) h vs t
    ∧ (h = t ↔ vs = []).

(** The same chain with the address of each node. *)
Fixpoint chain (m : gmap loc (node T)) (p : loc) (l : list (loc * T)) (q : loc)
  : Prop :=
  match l with
  | [] => p = q
  | (p0, v) :: rest =>
      p0 = p
      ∧ ∃ p', m !! p = Some (Node (make_shared v) (Some p')) ∧ chain m p' rest q
  end.

(** [q] is between two calls and holds [vs], oldest first. *)
Definition holds (q : threadsafe_queue T) (vs : list T) : Prop :=
  ∃ h t l,
    head q = Some h ∧ tail q = Some t
    ∧ head_mutex q = Free ∧ tail_mutex q = Free
    ∧ mem q !! t = Some (Node None None)
    ∧ chain (mem q) h l t
    ∧ l.*2 = vs
    ∧ NoDup (l.*1 ++ [t]).

Lemma chain_lseg m p l q : chain m p l q → lseg m p (l.*2) q.
Proof.
  revert p. induction l as [|[p0 v] l IH]; intros p; simpl; [done|].
  intros (_ & p' & Hp & Hc). eauto.
Qed.

Lemma chain_same m m' p l q :
  (∀ x, x ∈ l.*1 → m' !! x = m !! x) → chain m p l q → chain m' p l q.
Proof.
  revert p. induction l as [|[p0 v] l IH]; intros p Hsame; simpl; [done|].
  intros (-> & p' & Hp & Hc). split; [done|]. exists p'. split.
  - rewrite Hsame; [done|]. simpl. set_solver.
  - apply IH; [|done]. intros x Hx. apply Hsame. simpl. set_solver.
Qed.

Lemma chain_allocated m p l q x :
  chain m p l q → x ∈ l.*1 → is_Some (m !! x).
Proof.
  revert p. induction l as [|[p0 v] l IH]; intros p; simpl.
  - intros _ Hx. by apply elem_of_nil in Hx.
  - intros (-> & p' & Hp & Hc) Hx. apply elem_of_cons in Hx as [->|Hx]; eauto.
Qed.

Lemma chain_snoc m p l q v q' :
  chain m p l q → m !! q = Some (Node (make_shared v) (Some q')) →
  chain m p (l ++ [(q, v)]) q'.
Proof.
  revert p. induction l as [|[p0 v0] l IH]; intros p; simpl.
  - intros -> Hq. eauto.
  - intros (-> & p' & Hp & Hc) Hq. split; [done|]. eauto.
Qed.

Lemma holds_invariant q vs : holds q vs → invariant q.
Proof.
  intros (h & t & l & Hh & Ht & _ & _ & Hm & Hc & Hl & Hnd).
  exists h, t, vs. split; [done|]. split; [done|].
  split; [by eexists|]. split; [subst vs; by apply chain_lseg|].
  subst vs. destruct l as [|[p0 v] l]; simpl in *; [done|].
  destruct Hc as (-> & _). split; [|done].
  intros ->. apply NoDup_cons in Hnd as [Hnotin _]. set_solver.
Qed.

Lemma load_allocated (q : threadsafe_queue T) l n :
  mem q !! l = Some n → load (Some l) q = Returns n q.
Proof. intros Hl. unfold load. by rewrite Hl. Qed.

Lemma set_data_allocated (q : threadsafe_queue T) l n d :
  mem q !! l = Some n →
  set_data (Some l) d q
  = Returns tt (set_mem (<[l := Node d (next n)]> (mem q)) q).
Proof. intros Hl. unfold set_data, bind, load, store. by rewrite Hl, Hl. Qed.

Lemma set_next_allocated (q : threadsafe_queue T) l n nx :
  mem q !! l = Some n →
  set_next (Some l) nx q
  = Returns tt (set_mem (<[l := Node (data n) nx]> (mem q)) q).
Proof. intros Hl. unfold set_next, bind, load, store. by rewrite Hl, Hl. Qed.

Context `{!Allocator T}.

Lemma holds_new : holds new [].
Proof.
  exists (alloc ∅), (alloc ∅), []. simpl.
  repeat split; try done.
  - apply lookup_singleton_eq.
  - apply NoDup_singleton.
Qed.

Lemma push_holds q vs v :
  holds q vs → ∃ q', push v q = Returns tt q' ∧ holds q' (vs ++ [v]).
Proof.
  intros (h & t & l & Hh & Ht & Hhm & Htm & Hm & Hc & Hl & Hnd).
  destruct q as [m hm hd tm tl]. simpl in *. subst hm tm hd tl.
  pose proof (alloc_fresh m) as Hfresh.
  set (ln := alloc m) in *.
  assert (Hne : ln ≠ t) by (intros ->; congruence).
  unfold push, bind, new_node, lock_guard. simpl.
  fold ln.
  erewrite set_data_allocated
    by (simpl; rewrite lookup_insert_ne by done; exact Hm).
  simpl.
  erewrite set_next_allocated by (simpl; apply lookup_insert_eq).
  simpl. eexists. split; [reflexivity|].
  exists h, ln, (l ++ [(t, v)]). simpl.
  rewrite insert_insert_eq.
  assert (Hnotin : ∀ x, x ∈ l.*1 → x ≠ t ∧ x ≠ ln).
  { intros x Hx. split.
    - intros ->. apply NoDup_app in Hnd as (_ & Hd & _).
      apply (Hd t Hx). set_solver.
    - intros ->. destruct (chain_allocated _ _ _ _ _ Hc Hx) as [n Hn].
      congruence. }
  repeat split; try done.
  - rewrite lookup_insert_ne by done. apply lookup_insert_eq.
  - apply chain_snoc.
    + eapply chain_same; [|exact Hc]. intros x Hx.
      destruct (Hnotin x Hx). by rewrite !lookup_insert_ne.
    + apply lookup_insert_eq.
  - rewrite fmap_app. simpl. by rewrite Hl.
  - rewrite fmap_app. simpl. apply NoDup_app. split; [done|]. split.
    + intros x Hx Hx'. apply list_elem_of_singleton in Hx' as ->.
      apply elem_of_app in Hx as [Hx|Hx].
      * by destruct (Hnotin ln Hx).
      * apply list_elem_of_singleton in Hx. done.
    + apply NoDup_singleton.
Qed.

Lemma try_pop_empty q :
  holds q [] → try_pop q = Returns None q.
Proof.
  intros (h & t & l & Hh & Ht & Hhm & Htm & Hm & Hc & Hl & Hnd).
  destruct l as [|[p0 v0] l]; [|discriminate]. simpl in Hc. subst t.
  destruct q as [m hm hd tm tl]. simpl in *. subst hm tm hd tl.
  unfold try_pop, pop_head, get_tail, lock_guard, bind. simpl.
  rewrite decide_True by done. reflexivity.
Qed.

Lemma try_pop_holds q v vs :
  holds q (v :: vs) →
  ∃ q', try_pop q = Returns (make_shared v) q' ∧ holds q' vs.
Proof.
  intros (h & t & l & Hh & Ht & Hhm & Htm & Hm & Hc & Hl & Hnd).
  destruct l as [|[p0 v0] l]; [discriminate|].
  simpl in Hc, Hl, Hnd. destruct Hc as (-> & p' & Hp & Hc).
  injection Hl as -> Hl.
  apply NoDup_cons in Hnd as [Hnotin Hnd].
  assert (Hne : h ≠ t) by set_solver.
  destruct q as [m hm hd tm tl]. simpl in *. subst hm tm hd tl.
  unfold try_pop, pop_head, get_tail, lock_guard, bind. simpl.
  rewrite decide_False by congruence.
  rewrite Hp. simpl.
  erewrite set_next_allocated by (simpl; exact Hp).
  simpl. unfold load, destroy, ret. simpl.
  repeat (rewrite lookup_insert_eq; simpl).
  eexists. split; [reflexivity|].
  exists p', t, l. simpl.
  rewrite delete_insert_eq.
  assert (Hother : ∀ x, x ≠ h → delete h m !! x = m !! x)
    by (intros x Hx; by rewrite lookup_delete_ne).
  repeat split; try done.
  - by rewrite Hother.
  - eapply chain_same; [|exact Hc]. intros x Hx. apply Hother.
    intros ->. set_solver.
Qed.

Lemma fine_run_app (a b : list (queue_call T)) (q q1 : threadsafe_queue T) outs :
  fine_run a q = Returns outs q1 →
  fine_run (a ++ b) q
  = match fine_run b q1 with
    | Returns outs' q2 => Returns (outs ++ outs') q2
    | Throws e s => Throws e s
    | Blocks => Blocks
    | Undefined => Undefined
    end.
Proof.
  revert q outs. induction a as [|c a IH]; intros q outs.
  - intros [= <- <-]. simpl. by destruct (fine_run b q).
  - cbn [fine_run app]. unfold bind, ret.
    destruct (fine_call c q) as [x s| | |]; try discriminate.
    destruct (fine_run a s) as [xs s'| | |] eqn:Ha; try discriminate.
    intros [= <- <-]. rewrite (IH _ _ Ha).
    by destruct (fine_run b s').
Qed.

(** Every sequence of calls runs to the end on a queue between calls, and
    shows the caller what the coarse-grained queue holding the same values
    shows. *)
Lemma runs_agree (cs : list (queue_call T)) (q : threadsafe_queue T)
    (vs : list T) :
  holds q vs →
  ∃ outs q' vs',
    fine_run cs q = Returns outs q'
    ∧ coarse_run cs (CoarseQueue.Mk Free (make_shared <$> vs))
      = Returns outs (CoarseQueue.Mk Free (make_shared <$> vs'))
    ∧ holds q' vs'.
Proof.
  revert q vs. induction cs as [|c cs IH]; intros q vs Hq.
  - exists [], q, vs. by repeat split.
  - destruct c as [v|].
    + destruct (push_holds q vs v Hq) as (q1 & Hpush & Hq1).
      destruct (IH q1 _ Hq1) as (outs & q' & vs' & Hf & Hco & Hq').
      exists (None :: outs), q', vs'. split; [|split; [|done]].
      * cbn [fine_run fine_call]. unfold bind, ret. rewrite Hpush. cbv beta iota. by rewrite Hf.
      * cbn [coarse_run coarse_call]. unfold bind, ret.
        rewrite CoarseQueueProps.push_free, <- fmap_snoc. cbv beta iota.
        by rewrite Hco.
    + destruct vs as [|v vs].
      * pose proof (try_pop_empty q Hq) as Hpop.
        destruct (IH q _ Hq) as (outs & q' & vs' & Hf & Hco & Hq').
        exists (Some None :: outs), q', vs'. split; [|split; [|done]].
        -- cbn [fine_run fine_call]. unfold bind, ret. rewrite Hpop. cbv beta iota. by rewrite Hf.
        -- cbn [coarse_run coarse_call]. unfold bind, ret.
           rewrite fmap_nil, CoarseQueueProps.try_pop_nil. cbv beta iota.
           rewrite fmap_nil in Hco. by rewrite Hco.
      * destruct (try_pop_holds q v vs Hq) as (q1 & Hpop & Hq1).
        destruct (IH q1 _ Hq1) as (outs & q' & vs' & Hf & Hco & Hq').
        exists (Some (Some v) :: outs), q', vs'. split; [|split; [|done]].
        -- cbn [fine_run fine_call]. unfold bind, ret. rewrite Hpop. cbv beta iota. by rewrite Hf.
        -- cbn [coarse_run coarse_call]. unfold bind, ret.
           rewrite fmap_cons, CoarseQueueProps.try_pop_cons. cbv beta iota.
           by rewrite Hco.
Qed.

End Representation.

(** C5. Whatever pushes and try_pops are run one after another on a new
    queue, with any allocator, every call returns, and after each of them
    (the first [k] calls, for every [k]) the invariant holds: tail->next
    and tail->data are null, the next links lead from head to tail, and
    head equals tail exactly when no value is held. *)
Theorem invariant_after_each_call {T} (A : Allocator T)
    (cs : list (queue_call T)) (k : nat) :
  ∃ outs q outs' q',
    fine_run (take k cs) new = Returns outs q
    ∧ invariant q
    ∧ fine_run (drop k cs) q = Returns outs' q'
    ∧ fine_run cs new = Returns (outs ++ outs') q'
    ∧ invariant q'.
Proof.
  destruct (runs_agree (take k cs) new [] holds_new)
    as (outs & q & vs & Hf & _ & Hq).
  destruct (runs_agree (drop k cs) q vs Hq) as (outs' & q' & vs' & Hf' & _ & Hq').
  exists outs, q, outs', q'.
  split; [done|]. split; [by eapply holds_invariant|]. split; [done|].
  split; [|by eapply holds_invariant].
  rewrite <- (take_drop k cs) at 1.
  rewrite (fine_run_app _ _ _ _ _ Hf). by rewrite Hf'.
Qed.

(** The queue run on the first free addresses. *)
Example fine_run_first_free :
  match @fine_run Z first_free
          [TryPop; Push 4; Push 8; TryPop; Push 15; TryPop; TryPop; TryPop]
          (@new Z first_free)
  with
  | Returns outs _ => outs
  | _ => []
  end
  = [Some None; None; None; Some (Some 4); None; Some (Some 8);
     Some (Some 15); Some None].
Proof. vm_compute. reflexivity. Qed.

(** C9. Whatever pushes and try_pops are run one after another, the
    fine-grained queue and the coarse-grained queue, both new, return from
    every call and show the same results: the same handles from try_pop,
    empty ones at the same calls. *)
Theorem fine_refines_coarse {T} (A : Allocator T) (cs : list (queue_call T)) :
  ∃ outs qf qc,
    fine_run cs new = Returns outs qf
    ∧ coarse_run cs CoarseQueue.new = Returns outs qc.
Proof.
  destruct (runs_agree cs new [] holds_new) as (outs & q & vs & Hf & Hco & _).
  eauto.
Qed.

End FineQueueProps.

(** * Further properties of the code *)

(** ** threadsafe_stack: order, emptiness, copies *)

Module StackOrderProps.
Import Stack StackCopy.

Section Order.
Context {T : Type}.

Lemma push_on (v : T) (l : list T) :
  push v (Mk l Free) = Returns tt (Mk (v :: l) Free).
Proof. reflexivity. Qed.

Lemma push_each_on (vs l : list T) :
  push_each vs (Mk l Free) = Returns tt (Mk (rev vs ++ l) Free).
Proof.
  revert l. induction vs as [|v vs IH]; intros l; [reflexivity|].
  cbn [push_each]. unfold bind. rewrite push_on, IH. simpl.
  by rewrite <- app_assoc.
Qed.

Lemma pop_times_on (vs l : list T) :
  pop_times (length vs) (Mk (vs ++ l) Free)
  = Returns (make_shared <$> vs) (Mk l Free).
Proof.
  revert l. induction vs as [|v vs IH]; intros l; [reflexivity|].
  cbn [pop_times length]. unfold bind at 1.
  change (pop (Mk ((v :: vs) ++ l) Free))
    with (Returns (S := threadsafe_stack T) (make_shared v) (Mk (vs ++ l) Free)).
  cbv beta iota. unfold bind, ret. by rewrite IH.
Qed.

End Order.

(** X1. Last in, first out.  On a stack holding anything, pushing the
    values [vs] and then popping as many times hands back [vs] from the
    last pushed to the first and leaves the stack exactly as it was; on a
    new stack the pop after those throws empty_stack.  A copy made after
    the pushes pops the same values, and making it changes nothing in the
    stack copied. *)
Theorem pushes_then_pops_lifo {T} (vs l : list T) :
  (push_each vs >>> pop_times (length vs)) (Mk l Free)
  = Returns (make_shared <$> rev vs) (Mk l Free)
  ∧ (push_each vs >>> pop_times (length vs) >>> pop) new
    = Throws empty_stack new
  ∧ ∃ s c, push_each vs (Mk l Free) = Returns tt s
           ∧ copy s = Returns c s
           ∧ pop_times (length vs) c = Returns (make_shared <$> rev vs) (Mk l Free).
Proof.
  assert (Hlen : length vs = length (rev vs)) by (by rewrite length_rev).
  split; [|split].
  - unfold bind. rewrite push_each_on, Hlen. apply pop_times_on.
  - unfold bind, new. rewrite push_each_on, Hlen, pop_times_on. reflexivity.
  - eexists _, _. split; [apply push_each_on|]. split; [reflexivity|].
    rewrite Hlen. apply pop_times_on.
Qed.

(** X2. On any stack whose mutex is free, empty() changes nothing and
    answers true exactly when the stack holds nothing, which is exactly
    when pop() and pop(T&) throw empty_stack (and change nothing);
    otherwise both pops hand back the top, take off that one element and
    leave the mutex free. *)
Theorem empty_agrees_with_pop {T} (l : list T) :
  empty (Mk l Free) = Returns (bool_decide (l = [])) (Mk l Free)
  ∧ (l = [] ↔ pop (Mk l Free) = Throws empty_stack (Mk l Free))
  ∧ (l = [] ↔ pop_ref (Mk l Free) = Throws empty_stack (Mk l Free))
  ∧ ∀ top rest, l = top :: rest →
      pop (Mk l Free) = Returns (make_shared top) (Mk rest Free)
      ∧ pop_ref (Mk l Free) = Returns top (Mk rest Free).
Proof.
  destruct l as [|top rest].
  - repeat split; try done.
  - split; [reflexivity|]. split; [|split].
    + split; [discriminate|]. intros H. discriminate H.
    + split; [discriminate|]. intros H. discriminate H.
    + intros ? ? [= <- <-]. split; reflexivity.
Qed.

End StackOrderProps.

(** ** add_to_list and list_contains *)

Module SharedListProps.
Import SharedList.

Lemma std_find_end (l : list Z) (val : Z) :
  (std_find l val =? length l)%nat = bool_decide (val ∉ l).
Proof.
  induction l as [|x l IH]; cbn [std_find length].
  - symmetry. apply bool_decide_eq_true_2, not_elem_of_nil.
  - destruct (Z.eqb_spec x val) as [->|Hne].
    + symmetry. apply bool_decide_eq_false. set_solver.
    + change (S (std_find l val) =? S (length l))%nat
        with (std_find l val =? length l)%nat.
      rewrite IH. apply bool_decide_ext. set_solver.
Qed.

Lemma add_each_on (vs l : list Z) :
  add_each vs (Globals l Free) = Returns tt (Globals (l ++ vs) Free).
Proof.
  revert l. induction vs as [|v vs IH]; intros l.
  - simpl. unfold ret. by rewrite app_nil_r.
  - cbn [add_each]. unfold bind.
    change (add_to_list v (Globals l Free))
      with (Returns (S := globals) tt (Globals (l ++ [v]) Free)).
    cbv beta iota. rewrite IH. by rewrite <- app_assoc.
Qed.

(** X3. After any calls of add_to_list, list_contains answers true for
    exactly the values that are in the list: those it held before and
    those added.  The list is the old one followed by the values added,
    in call order; list_contains leaves it as it is, mutex free. *)
Theorem contains_after_adds (l vs : list Z) (val : Z) :
  (add_each vs >>> list_contains val) (Globals l Free)
  = Returns (bool_decide (val ∈ l ++ vs)) (Globals (l ++ vs) Free).
Proof.
  unfold bind. rewrite add_each_on.
  unfold list_contains, lock_guard. simpl.
  rewrite std_find_end. f_equal.
  destruct (decide (val ∈ l ++ vs)) as [Hin|Hnin].
  - rewrite (bool_decide_eq_true_2 _ Hin).
    by rewrite bool_decide_eq_false_2 by (intros H; by apply H).
  - rewrite (bool_decide_eq_false_2 _ Hnin).
    by rewrite bool_decide_eq_true_2.
Qed.

End SharedListProps.

(** ** data_wrapper and the leaked reference *)

Module WrapperProps.
Import Wrapper.

(** X4. Whatever do_something does: called by process_data on the data it
    is handed, it runs with x.m held; in foo, process_data has returned and
    released x.m, malicious_function has left [unprotected] pointing at
    x.data, and do_something runs on that same data with x.m free. *)
Theorem foo_runs_unprotected (do_something : mutex → some_data → some_data)
    (d : some_data) (p : option some_data_ptr) :
  process_data (λ ptr, call_do_something do_something (Some ptr))
    (World d Free p)
  = Returns tt (World (do_something Held d) Free p)
  ∧ process_data malicious_function (World d Free p)
    = Returns tt (World d Free (Some x_data))
  ∧ foo do_something (World d Free p)
    = Returns tt (World (do_something Free d) Free (Some x_data)).
Proof. repeat split. Qed.

End WrapperProps.

(** ** threadsafe_list: search, traversal and removal together *)

Module ListSearchProps.
Import HandOverHand ListProps.

Section Search.
Context {T : Type}.

Lemma find_first_if_loop_chain (p : T → bool) (vs : list T) :
  find_first_if_loop p (chain_of vs)
  = Some (hd_error (filter (λ v, p v = true) vs)).
Proof.
  induction vs as [|v vs IH]; [reflexivity|].
  cbn [chain_of find_first_if_loop make_shared]. destruct (p v) eqn:Hp.
  - by rewrite filter_cons_True by done.
  - rewrite IH. by rewrite filter_cons_False by congruence.
Qed.

Lemma find_first_if_list_of (p : T → bool) (vs : list T) :
  find_first_if p (list_of vs)
  = Returns (hd_error (filter (λ v, p v = true) vs)) (list_of vs).
Proof. unfold find_first_if. simpl. by rewrite find_first_if_loop_chain. Qed.

Lemma head_filter_first (p : T → bool) (vs : list T) :
  match hd_error (filter (λ v, p v = true) vs) with
  | Some v => ∃ before after, vs = before ++ v :: after ∧ p v = true
                              ∧ Forall (λ u, p u = false) before
  | None => Forall (λ u, p u = false) vs
  end.
Proof.
  induction vs as [|v vs IH]; [by constructor|].
  destruct (p v) eqn:Hp.
  - rewrite filter_cons_True by done. simpl.
    exists [], vs. by repeat split.
  - rewrite filter_cons_False by congruence.
    destruct (hd_error (filter (λ v, p v = true) vs)) as [w|].
    + destruct IH as (before & after & -> & Hw & Hall).
      exists (v :: before), after. repeat split; [done|by constructor].
    + by constructor.
Qed.

Lemma for_each_list_of {A} (f : T → A → A) (a0 : A) (vs : list T) :
  for_each f a0 (list_of vs)
  = Returns (foldl (λ acc v, f v acc) a0 vs) (list_of vs).
Proof. unfold for_each. simpl. by rewrite for_each_loop_chain. Qed.

End Search.

(** X5. On a list built by pushing the values [a] at the front,
    find_first_if hands back the first value, going from the last pushed
    to the first pushed, that the predicate holds for: every value visited
    before it fails the predicate; when no value passes, it hands back the
    empty handle.  The list is left as it was. *)
Theorem find_first_if_finds_first {T} (a : list T) (p : T → bool) :
  ∃ l r, push_each a new = Returns tt l
         ∧ find_first_if p l = Returns r l
         ∧ match r with
           | Some v => ∃ before after, rev a = before ++ v :: after
                                       ∧ p v = true
                                       ∧ Forall (λ u, p u = false) before
           | None => Forall (λ u, p u = false) a
           end.
Proof.
  exists (list_of (rev a)), (hd_error (filter (λ v, p v = true) (rev a))).
  split; [by rewrite new_is_list_of, push_each_list_of, app_nil_r|].
  split; [apply find_first_if_list_of|].
  pose proof (head_filter_first p (rev a)) as H.
  destruct (hd_error (filter (λ v, p v = true) (rev a))); [done|].
  by apply Forall_rev in H; rewrite rev_involutive in H.
Qed.

(** X6. for_each hands the values to its action from the last pushed to the
    first pushed, each once, threading the action's state: on the list
    built from [a] it computes [f a1 (f a2 (... (f an s)))] and leaves the
    list as it was. *)
Theorem for_each_is_fold {T A} (a : list T) (f : T → A → A) (s : A) :
  ∃ l, push_each a new = Returns tt l
       ∧ for_each f s l = Returns (foldr f s a) l.
Proof.
  exists (list_of (rev a)).
  split; [by rewrite new_is_list_of, push_each_list_of, app_nil_r|].
  rewrite for_each_list_of. f_equal.
  rewrite <- (rev_involutive a) at 2. generalize (rev a) as vs. intros vs.
  revert s. induction vs as [|v vs IH]; intros s; [done|].
  simpl. rewrite foldr_app. simpl. apply IH.
Qed.

(** X7. On a list built by pushes, after remove_if with a predicate,
    find_first_if with the same predicate hands back the empty handle, a
    second remove_if with it changes nothing, and remove_if with [p] and
    then with [q] leaves what one remove_if with "p or q" leaves. *)
Theorem remove_if_then_search {T} (a : list T) (p q : T → bool) :
  ∃ l l1, push_each a new = Returns tt l
          ∧ remove_if p l = Returns tt l1
          ∧ find_first_if p l1 = Returns None l1
          ∧ remove_if p l1 = Returns tt l1
          ∧ (remove_if p >>> remove_if q) l
            = remove_if (λ v, p v || q v) l.
Proof.
  exists (list_of (rev a)), (list_of (filter (λ v, p v = false) (rev a))).
  split; [by rewrite new_is_list_of, push_each_list_of, app_nil_r|].
  split; [apply remove_if_list_of|]. generalize (rev a) as vs. intros vs.
  split; [|split].
  - rewrite find_first_if_list_of. f_equal.
    induction vs as [|v vs IH]; [done|].
    destruct (p v) eqn:Hp.
    + by rewrite filter_cons_False by congruence.
    + rewrite filter_cons_True by done.
      by rewrite filter_cons_False by congruence.
  - rewrite remove_if_list_of. do 2 f_equal.
    induction vs as [|v vs IH]; [done|].
    destruct (p v) eqn:Hp.
    + by rewrite filter_cons_False by congruence.
    + rewrite !filter_cons_True by done. by rewrite IH.
  - unfold bind. rewrite !remove_if_list_of. cbv beta iota. do 2 f_equal.
    rewrite list_filter_filter. apply list_filter_iff. intros v.
    destruct (p v), (q v); simpl; naive_solver.
Qed.

End ListSearchProps.

(** ** reduce_list on any input *)

Module DemoFoldProps.
Import HandOverHand ListProps Demo.

(** The running totals of [f] over the values [vs], from [sum]. *)
Fixpoint totals (f : Z → Z → Z) (sum : Z) (vs : list Z) : list Z :=
  match vs with
  | [] => []
  | v :: rest => f v sum :: totals f (f v sum) rest
  end.

(** Standard output after each total has been written with an endl. *)
Definition printed (out : stdout) (ts : list Z) : stdout :=
  foldl (λ o t, (o +:+ pretty t) +:+ endl) out ts.

(** An int holds the values from -2^31 to 2^31 - 1. *)
Definition in_int (z : Z) : Prop := - 2 ^ 31 ≤ z < 2 ^ 31.

Lemma reduce_loop_step (f : Z → Z → Z) (mx : mutex) (cd : shared_ptr Z)
    (v : Z) (nx : unique_ptr) (sum : Z) (out : stdout) :
  reduce_loop f (Node mx cd (owns (Node Free (Some v) nx))) sum out
  = let sum' := match cd with None => f v 0 | Some _ => f v sum end in
    reduce_loop f (Node Free (Some v) nx) sum'
      ((out +:+ pretty sum') +:+ endl).
Proof. reflexivity. Qed.

Lemma reduce_loop_from_data (f : Z → Z → Z) (vs : list Z) (mx : mutex)
    (c sum : Z) (out : stdout) :
  reduce_loop f (Node mx (Some c) (chain_of vs)) sum out
  = Returns (foldl (λ s v, f v s) sum vs) (printed out (totals f sum vs)).
Proof.
  revert mx c sum out. induction vs as [|v vs IH]; intros mx c sum out.
  - reflexivity.
  - cbn [chain_of make_shared]. rewrite reduce_loop_step, IH. reflexivity.
Qed.

Lemma reduce_loop_from_sentinel (f : Z → Z → Z) (vs : list Z) (mx : mutex)
    (out : stdout) :
  reduce_loop f (Node mx None (chain_of vs)) 0 out
  = Returns (foldl (λ s v, f v s) 0 vs) (printed out (totals f 0 vs)).
Proof.
  destruct vs as [|v vs]; [reflexivity|].
  cbn [chain_of make_shared].
  rewrite reduce_loop_step, reduce_loop_from_data. reflexivity.
Qed.

Lemma foldl_rev_foldr {A B} (f : B → A → A) (s : A) (a : list B) :
  foldl (λ acc v, f v acc) s (rev a) = foldr f s a.
Proof.
  rewrite <- (rev_involutive a) at 2. generalize (rev a) as vs. intros vs.
  revert s. induction vs as [|v vs IH]; intros s; [done|].
  simpl. rewrite foldr_app. simpl. apply IH.
Qed.

Lemma wrap_int_add (x y : Z) : wrap_int (x + wrap_int y) = wrap_int (x + y).
Proof.
  unfold wrap_int. f_equal.
  replace (x + ((y + 2 ^ 31) mod 2 ^ 32 - 2 ^ 31) + 2 ^ 31)
    with (x + (y + 2 ^ 31) mod 2 ^ 32) by lia.
  rewrite Zplus_mod_idemp_r. f_equal. lia.
Qed.

Lemma wrap_int_in_int (z : Z) : in_int z → wrap_int z = z.
Proof.
  unfold in_int, wrap_int. intros Hz.
  rewrite Z.mod_small by lia. lia.
Qed.

Lemma foldr_reducer (a : list Z) :
  foldr reducer 0 a = wrap_int (foldr Z.add 0 a).
Proof.
  induction a as [|x a IH]; [reflexivity|].
  simpl. rewrite IH. unfold reducer. apply wrap_int_add.
Qed.

Lemma getHead_chain {S} (a : list Z) (s : S) :
  getHead a s = Returns (Some (Node Free None (chain_of (rev a)))) s.
Proof.
  unfold getHead. rewrite new_is_list_of, push_each_list_of, app_nil_r.
  reflexivity.
Qed.

Lemma reduce_list_chain (a : list Z) (f : Z → Z → Z) (out : stdout) :
  reduce_list (Some (Node Free None (chain_of (rev a)))) f out
  = Returns (foldr f 0 a) (printed out (totals f 0 (rev a))).
Proof.
  change (reduce_list (Some (Node Free None (chain_of (rev a)))) f out)
    with (reduce_loop f (Node Free None (chain_of (rev a))) 0 out).
  rewrite reduce_loop_from_sentinel. by rewrite foldl_rev_foldr.
Qed.

Lemma totals_snoc (f : Z → Z → Z) (s : Z) (l : list Z) (v : Z) :
  totals f s (l ++ [v])
  = totals f s l ++ [f v (foldl (λ acc u, f u acc) s l)].
Proof.
  revert s. induction l as [|u l IH]; intros s; [done|].
  simpl. by rewrite IH.
Qed.

(** X8. For every input vector [a] and every action [f], getHead hands
    back a head and reduce_list on it returns f(a1, f(a2, ... f(an, 0))):
    the values are folded from the last pushed to the first pushed, all of
    them, from the seed 0, and each running total is written on a line of
    its own.  For the empty vector it returns 0 and writes nothing. *)
Theorem reduce_list_is_fold (a : list Z) (f : Z → Z → Z) (out : stdout) :
  ∃ head, getHead a out = Returns (Some head) out
          ∧ reduce_list (Some head) f out
            = Returns (foldr f 0 a) (printed out (totals f 0 (rev a)))
          ∧ length (totals f 0 (rev a)) = length a
          ∧ (a = [] → reduce_list (Some head) f out = Returns 0 out).
Proof.
  exists (Node Free None (chain_of (rev a))).
  split; [apply getHead_chain|]. split; [apply reduce_list_chain|]. split.
  - rewrite <- (length_rev a). generalize (rev a) as vs. generalize 0 as s.
    intros s vs. revert s. induction vs as [|v vs IH]; intros s; [done|].
    simpl. by rewrite IH.
  - intros ->. apply (reduce_list_chain [] f out).
Qed.

(** X9. With reducer, reduce_list returns the sum of all the values of the
    input vector, none left out, whenever every running total fits an int
    (the totals are the sums of the last k values, for each k). *)
Theorem reduce_list_sums_all (a : list Z) (out : stdout) :
  Forall in_int (totals Z.add 0 (rev a)) →
  ∃ head out', getHead a out = Returns (Some head) out
               ∧ reduce_list (Some head) reducer out
                 = Returns (foldr Z.add 0 a) out'.
Proof.
  intros Hfit.
  exists (Node Free None (chain_of (rev a))),
         (printed out (totals reducer 0 (rev a))).
  split; [apply getHead_chain|]. rewrite reduce_list_chain. f_equal.
  rewrite foldr_reducer. apply wrap_int_in_int.
  rewrite <- (foldl_rev_foldr Z.add 0 a).
  destruct (rev a) as [|v vs _] using rev_ind.
  - unfold in_int. simpl. lia.
  - rewrite foldl_app. simpl.
    rewrite totals_snoc in Hfit. apply Forall_app in Hfit as [_ Hv].
    rewrite Forall_singleton in Hv. exact Hv.
Qed.

Lemma reduce_list_sums_all_witness :
  ∃ head out', getHead [4; -6; 15; 20] EmptyString
               = Returns (Some head) EmptyString
               ∧ reduce_list (Some head) reducer EmptyString
                 = Returns 33 out'.
Proof.
  apply (reduce_list_sums_all [4; -6; 15; 20] EmptyString).
  unfold in_int. repeat constructor; simpl; lia.
Defined.

End DemoFoldProps.

(** ** The two single-mutex queues *)

Module SingleMutexQueueProps.

Section Agreement.
Context {T : Type}.

(** The queue of values holding [l] and the queue of cells holding the
    same, both between calls. *)
Definition value_state (l : list T) : ValueQueue.threadsafe_queue T :=
  ValueQueue.Mk Free l.
Definition cell_state (l : list T) : CoarseQueue.threadsafe_queue T :=
  CoarseQueue.Mk Free (make_shared <$> l).

(** Two outcomes that show the same and leave the same content. *)
Definition same_outcome {A}
    (o1 : outcome (ValueQueue.threadsafe_queue T) A)
    (o2 : outcome (CoarseQueue.threadsafe_queue T) A) : Prop :=
  match o1, o2 with
  | Returns a1 q1, Returns a2 q2 =>
      a1 = a2 ∧ ∃ l, q1 = value_state l ∧ q2 = cell_state l
  | Blocks, Blocks => True
  | _, _ => False
  end.

Lemma call_agrees (c : member_call T) (l : list T) :
  same_outcome (value_call (unfailing c) (value_state l))
               (cell_call (unfailing c) (cell_state l)).
Proof.
  destruct c as [x| |x| | |].
  - split; [reflexivity|]. exists (l ++ [x]). split; [reflexivity|].
    unfold cell_state. rewrite fmap_app. reflexivity.
  - destruct l as [|v l]; [done|]. split; [reflexivity|]. by exists l.
  - destruct l as [|v l]; (split; [reflexivity|]); [by exists []|by exists l].
  - destruct l as [|v l]; [done|]. split; [reflexivity|]. by exists l.
  - destruct l as [|v l]; (split; [reflexivity|]); [by exists []|by exists l].
  - destruct l as [|v l]; (split; [reflexivity|]);
      [by exists []|by exists (v :: l)].
Qed.

Lemma calls_agree (cs : list (member_call T)) (l : list T) :
  same_outcome (run_calls value_call (unfailing <$> cs) (value_state l))
               (run_calls cell_call (unfailing <$> cs) (cell_state l)).
Proof.
  revert l. induction cs as [|c cs IH]; intros l.
  - simpl. split; [done|]. by exists l.
  - rewrite fmap_cons. cbn [run_calls]. unfold bind at 1 3.
    pose proof (call_agrees c l) as Hc. unfold same_outcome in Hc.
    destruct (value_call (unfailing c) (value_state l)) as [a1 q1| | |];
      destruct (cell_call (unfailing c) (cell_state l)) as [a2 q2| | |];
      try done.
    destruct Hc as (<- & l' & -> & ->).
    specialize (IH l'). unfold bind, ret. unfold same_outcome in *.
    destruct (run_calls value_call (unfailing <$> cs) (value_state l'))
      as [b1 r1| | |];
      destruct (run_calls cell_call (unfailing <$> cs) (cell_state l'))
        as [b2 r2| | |];
      try done.
    destruct IH as (<- & l'' & -> & ->). split; [done|]. by exists l''.
Qed.

End Agreement.

(** X10. The two single-mutex queues differ on one thread exactly where the
    shared_ptr is built.  As long as no construction throws, whatever
    member functions are called on new queues, in whatever order, both
    return the same answers, or the same call waits for ever in both.
    When a construction throws [e]: in the first queue the throw comes out
    of try_pop() and wait_and_pop(), with the mutex released and the
    element still at the front, where a later try_pop() finds it, and push
    cannot fail that way; in the second queue it comes out of push, with
    the queue as it was, and try_pop() and wait_and_pop() build nothing and
    hand the front out whatever [failure] is. *)
Theorem queues_differ_where_shared_ptr_is_built {T} (cs : list (member_call T))
    (v : T) (l : list T) (e : exception) :
  match run_calls value_call (unfailing <$> cs) ValueQueue.new,
        run_calls cell_call (unfailing <$> cs) CoarseQueue.new with
  | Returns answers1 _, Returns answers2 _ => answers1 = answers2
  | Blocks, Blocks => True
  | _, _ => False
  end
  ∧ (ValueQueue.try_pop (Some e) (value_state (v :: l))
     = Throws e (value_state (v :: l))
     ∧ ValueQueue.wait_and_pop (Some e) (value_state (v :: l))
       = Throws e (value_state (v :: l))
     ∧ ValueQueue.try_pop None (value_state (v :: l))
       = Returns (make_shared v) (value_state l)
     ∧ ValueQueue.try_pop (Some e) (value_state (@nil T))
       = Returns None (value_state [])
     ∧ ∀ failure, value_call (CallPush v, failure) (value_state l)
                  = Returns Done (value_state (l ++ [v])))
  ∧ (cell_call (CallPush v, Some e) (cell_state l) = Throws e (cell_state l)
     ∧ cell_call (CallPush v, None) (cell_state l)
       = Returns Done (cell_state (l ++ [v]))
     ∧ ∀ failure,
         cell_call (CallTryPop, failure) (cell_state (v :: l))
         = Returns (Handle (make_shared v)) (cell_state l)
         ∧ cell_call (CallWaitAndPop, failure) (cell_state (v :: l))
           = Returns (Handle (make_shared v)) (cell_state l)).
Proof.
  split; [|split].
  - pose proof (calls_agree cs []) as H. unfold same_outcome in H.
    change (value_state []) with (ValueQueue.new (T := T)) in H.
    change (cell_state []) with (CoarseQueue.new (T := T)) in H.
    destruct (run_calls value_call (unfailing <$> cs) ValueQueue.new);
      destruct (run_calls cell_call (unfailing <$> cs) CoarseQueue.new);
      try done.
    by destruct H.
  - repeat split.
  - split; [reflexivity|]. split.
    + unfold cell_state. rewrite fmap_app. reflexivity.
    + intros failure. split; reflexivity.
Qed.

End SingleMutexQueueProps.

(** ** First in, first out, with pushes and pops in any order *)

Module FifoProps.

Section Fifo.
Context {T : Type}.

(** The values a sequence of calls pushes, and the values its try_pops
    hand back, both in call order. *)
Definition pushed (cs : list (queue_call T)) : list T :=
  omap (λ c, match c with Push v => Some v | TryPop => None end) cs.
Definition popped (outs : list (option (shared_ptr T))) : list T :=
  omap (λ o, match o with Some (Some v) => Some v | _ => None end) outs.

Lemma coarse_run_fifo (cs : list (queue_call T)) (vs : list T) :
  ∃ outs rest,
    coarse_run cs (CoarseQueue.Mk Free (make_shared <$> vs))
    = Returns outs (CoarseQueue.Mk Free (make_shared <$> rest))
    ∧ vs ++ pushed cs = popped outs ++ rest
    ∧ length outs = length cs.
Proof.
  revert vs. induction cs as [|c cs IH]; intros vs.
  - exists [], vs. split; [done|]. split; [by rewrite app_nil_r|done].
  - destruct c as [v|].
    + destruct (IH (vs ++ [v])) as (outs & rest & Hrun & Heq & Hlen).
      exists (None :: outs), rest. split; [|split].
      * cbn [coarse_run coarse_call]. unfold bind, ret.
        rewrite CoarseQueueProps.push_free, <- fmap_snoc. cbv beta iota.
        by rewrite Hrun.
      * change (pushed (Push v :: cs)) with (v :: pushed cs).
        change (popped (None :: outs)) with (popped outs).
        rewrite <- Heq. by rewrite <- app_assoc.
      * simpl. by rewrite Hlen.
    + destruct vs as [|v vs].
      * destruct (IH []) as (outs & rest & Hrun & Heq & Hlen).
        exists (Some None :: outs), rest. split; [|split].
        -- cbn [coarse_run coarse_call]. unfold bind, ret.
           rewrite fmap_nil, CoarseQueueProps.try_pop_nil. cbv beta iota.
           rewrite fmap_nil in Hrun. by rewrite Hrun.
        -- exact Heq.
        -- simpl. by rewrite Hlen.
      * destruct (IH vs) as (outs & rest & Hrun & Heq & Hlen).
        exists (Some (Some v) :: outs), rest. split; [|split].
        -- cbn [coarse_run coarse_call]. unfold bind, ret.
           rewrite fmap_cons, CoarseQueueProps.try_pop_cons. cbv beta iota.
           by rewrite Hrun.
        -- change (popped (Some (Some v) :: outs)) with (v :: popped outs).
           change (pushed (TryPop :: cs)) with (pushed cs).
           by rewrite <- !app_comm_cons, Heq.
        -- simpl. by rewrite Hlen.
Qed.

End Fifo.

(** X11. First in, first out, however pushes and try_pops are mixed.  After
    any such calls on a new single-mutex queue of cells, the values pushed
    are, in order, the values the try_pops handed back followed by the
    values the queue still holds.  In that state try_pop hands back the
    oldest held value, or the empty handle exactly when nothing is held;
    and when nothing is held, empty() says true, try_pop(T&) says false
    and leaves the caller's variable alone, and both wait_and_pop
    overloads wait for ever. *)
Theorem coarse_queue_fifo_interleaved {T} (cs : list (queue_call T)) :
  ∃ outs q rest,
    coarse_run cs CoarseQueue.new = Returns outs q
    ∧ q = CoarseQueue.Mk Free (make_shared <$> rest)
    ∧ pushed cs = popped outs ++ rest
    ∧ length outs = length cs
    ∧ CoarseQueue.try_pop q
      = Returns (hd_error rest) (CoarseQueue.Mk Free (make_shared <$> tail rest))
    ∧ CoarseQueue.empty q = Returns (bool_decide (rest = [])) q
    ∧ (rest = [] →
       CoarseQueue.wait_and_pop q = Blocks
       ∧ CoarseQueue.wait_and_pop_ref q = Blocks
       ∧ ∀ value, CoarseQueue.try_pop_ref value q = Returns (false, value) q).
Proof.
  destruct (coarse_run_fifo cs []) as (outs & rest & Hrun & Heq & Hlen).
  exists outs, (CoarseQueue.Mk Free (make_shared <$> rest)), rest.
  split; [exact Hrun|]. split; [done|].
  split; [exact Heq|]. split; [exact Hlen|].
  split; [by destruct rest|]. split; [by destruct rest|].
  intros ->. by repeat split.
Qed.

End FifoProps.

(** ** The fine-grained queue: order and heap *)

Module FineQueueHeapProps.
Import FineQueue FineQueueProps FifoProps.

Section Heap.
Context {T : Type} `{!Allocator T}.

Lemma push_size (q : threadsafe_queue T) (vs : list T) (v : T) :
  holds q vs →
  ∃ q', push v q = Returns tt q' ∧ size (mem q') = S (size (mem q)).
Proof.
  intros (h & t & l & Hh & Ht & Hhm & Htm & Hm & _).
  destruct q as [m hm hd tm tl]. simpl in *. subst hm tm hd tl.
  pose proof (alloc_fresh m) as Hfresh.
  set (ln := alloc m) in *.
  assert (Hne : ln ≠ t) by (intros ->; congruence).
  unfold push, bind, new_node, lock_guard. simpl. fold ln.
  erewrite set_data_allocated
    by (simpl; rewrite lookup_insert_ne by done; exact Hm).
  simpl.
  erewrite set_next_allocated by (simpl; apply lookup_insert_eq).
  simpl. eexists. split; [reflexivity|]. simpl.
  rewrite insert_insert_eq.
  rewrite map_size_insert_Some
    by (rewrite lookup_insert_ne by done; by eexists).
  by rewrite map_size_insert_None.
Qed.

Lemma try_pop_size (q : threadsafe_queue T) (v : T) (vs : list T) :
  holds q (v :: vs) →
  ∃ q', try_pop q = Returns (make_shared v) q'
        ∧ size (mem q) = S (size (mem q')).
Proof.
  intros (h & t & l & Hh & Ht & Hhm & Htm & Hm & Hc & Hl & Hnd).
  destruct l as [|[p0 v0] l]; [discriminate|].
  simpl in Hc, Hl, Hnd. destruct Hc as (-> & p' & Hp & Hc).
  injection Hl as -> Hl.
  apply NoDup_cons in Hnd as [Hnotin Hnd].
  assert (Hne : h ≠ t) by set_solver.
  destruct q as [m hm hd tm tl]. simpl in *. subst hm tm hd tl.
  unfold try_pop, pop_head, get_tail, lock_guard, bind. simpl.
  rewrite decide_False by congruence.
  rewrite Hp. simpl.
  erewrite set_next_allocated by (simpl; exact Hp).
  simpl. unfold load, destroy, ret. simpl.
  repeat (rewrite lookup_insert_eq; simpl).
  eexists. split; [reflexivity|]. simpl.
  rewrite delete_insert_eq.
  rewrite <- (insert_delete_id m h _ Hp) at 1.
  by rewrite map_size_insert_None by apply lookup_delete_eq.
Qed.

Lemma fine_run_fifo (cs : list (queue_call T)) (q : threadsafe_queue T)
    (vs : list T) :
  holds q vs → size (mem q) = S (length vs) →
  ∃ outs q' rest,
    fine_run cs q = Returns outs q'
    ∧ holds q' rest
    ∧ size (mem q') = S (length rest)
    ∧ vs ++ pushed cs = popped outs ++ rest.
Proof.
  revert q vs. induction cs as [|c cs IH]; intros q vs Hq Hsize.
  - exists [], q, vs. split; [done|]. split; [done|]. split; [done|].
    by rewrite app_nil_r.
  - destruct c as [v|].
    + destruct (push_holds q vs v Hq) as (q1 & Hpush & Hq1).
      destruct (push_size q vs v Hq) as (q1' & Hpush' & Hs1).
      rewrite Hpush in Hpush'. injection Hpush' as <-.
      destruct (IH q1 (vs ++ [v]) Hq1) as (outs & q' & rest & Hf & Hq' & Hs' & Heq).
      { rewrite Hs1, Hsize, length_app. simpl. lia. }
      exists (None :: outs), q', rest. split; [|split; [done|split; [done|]]].
      * cbn [fine_run fine_call]. unfold bind, ret. rewrite Hpush.
        cbv beta iota. by rewrite Hf.
      * change (pushed (Push v :: cs)) with (v :: pushed cs).
        change (popped (None :: outs)) with (popped outs).
        rewrite <- Heq. by rewrite <- app_assoc.
    + destruct vs as [|v vs].
      * pose proof (try_pop_empty q Hq) as Hpop.
        destruct (IH q [] Hq Hsize) as (outs & q' & rest & Hf & Hq' & Hs' & Heq).
        exists (Some None :: outs), q', rest.
        split; [|split; [done|split; [done|]]]; [|exact Heq].
        cbn [fine_run fine_call]. unfold bind, ret. rewrite Hpop.
        cbv beta iota. by rewrite Hf.
      * destruct (try_pop_holds q v vs Hq) as (q1 & Hpop & Hq1).
        destruct (try_pop_size q v vs Hq) as (q1' & Hpop' & Hs1).
        rewrite Hpop in Hpop'. injection Hpop' as <-.
        destruct (IH q1 vs Hq1) as (outs & q' & rest & Hf & Hq' & Hs' & Heq).
        { simpl in Hsize. lia. }
        exists (Some (Some v) :: outs), q', rest.
        split; [|split; [done|split; [done|]]].
        -- cbn [fine_run fine_call]. unfold bind, ret. rewrite Hpop.
           cbv beta iota. by rewrite Hf.
        -- change (popped (Some (Some v) :: outs)) with (v :: popped outs).
           change (pushed (TryPop :: cs)) with (pushed cs).
           by rewrite <- !app_comm_cons, Heq.
Qed.

End Heap.

(** X12. The fine-grained queue is first in, first out however pushes and
    try_pops are mixed, and it neither leaks nor loses a node.  After any
    such calls on a new queue, with any allocator: the values pushed are,
    in order, the values the try_pops handed back followed by the values
    still held; the heap holds one node for each value held and the dummy
    node, nothing else; and the next try_pop hands back the oldest held
    value, or the empty handle when nothing is held. *)
Theorem fine_queue_fifo_no_leak {T} (A : Allocator T) (cs : list (queue_call T)) :
  ∃ outs q rest,
    fine_run cs new = Returns outs q
    ∧ pushed cs = popped outs ++ rest
    ∧ size (mem q) = S (length rest)
    ∧ ∃ q', try_pop q = Returns (hd_error rest) q'.
Proof.
  destruct (fine_run_fifo cs new [] holds_new) as (outs & q & rest & Hf & Hq & Hs & Heq).
  { unfold new. simpl. by rewrite map_size_singleton. }
  exists outs, q, rest. split; [done|]. split; [done|]. split; [done|].
  destruct rest as [|v rest].
  - exists q. by apply try_pop_empty.
  - destruct (try_pop_holds q v rest Hq) as (q' & Hpop & _). by exists q'.
Qed.

End FineQueueHeapProps.

(** ** The dummy-node queue with and without its mutexes *)

Module DummyQueueProps.
Import FineQueue.

Section Locks.
Context {T : Type} `{!Allocator T}.

(** The fine-grained queue without its two mutexes. *)
Definition unlocked (q : threadsafe_queue T) : DummyQueue.queue T :=
  DummyQueue.Mk (mem q) (head q) (tail q).

Definition between_calls (q : threadsafe_queue T) : Prop :=
  head_mutex q = Free ∧ tail_mutex q = Free.

(** One call: with both mutexes free the locked queue does what the
    lock-free one does, undefined behaviour included. *)
Lemma call_simulates (c : queue_call T) (q : threadsafe_queue T) :
  between_calls q →
  match fine_call c q with
  | Returns a q' =>
      DummyQueue.dummy_call c (unlocked q) = Returns a (unlocked q')
      ∧ between_calls q'
  | Undefined => DummyQueue.dummy_call c (unlocked q) = Undefined
  | _ => False
  end.
Proof.
  intros [Hh Ht]. destruct q as [m hm hd tm tl]. simpl in Hh, Ht. subst.
  destruct c as [v|].
  - unfold fine_call, DummyQueue.dummy_call, push, DummyQueue.push,
      new_node, set_data, set_next, load, store, DummyQueue.load,
      DummyQueue.store, lock_guard, bind, ret, unlocked, between_calls.
    simpl.
    destruct tl as [t|]; [|done]. simpl.
    destruct (decide (alloc m = t)) as [->|Hne].
    + repeat (rewrite lookup_insert_eq; simpl). done.
    + destruct (m !! t) as [n|] eqn:Hm;
        repeat (first [rewrite lookup_insert_eq
                      |rewrite lookup_insert_ne by done
                      |rewrite Hm]; simpl); done.
  - unfold fine_call, DummyQueue.dummy_call, try_pop, DummyQueue.try_pop,
      pop_head, get_tail, set_next, load, store, destroy, DummyQueue.load,
      DummyQueue.store, DummyQueue.destroy, lock_guard, bind, ret, unlocked,
      between_calls.
    simpl.
    destruct (decide (hd = tl)) as [->|Hne]; [done|]. simpl.
    destruct hd as [h|]; [|done]. simpl.
    destruct (m !! h) as [n|] eqn:Hm; [|done]. simpl.
    repeat (first [rewrite lookup_insert_eq|rewrite Hm]; simpl). done.
Qed.

Lemma calls_simulate (cs : list (queue_call T)) (q q' : threadsafe_queue T) outs :
  between_calls q →
  fine_run cs q = Returns outs q' →
  run_calls DummyQueue.dummy_call cs (unlocked q) = Returns outs (unlocked q').
Proof.
  revert q outs. induction cs as [|c cs IH]; intros q outs Hq.
  - by intros [= <- <-].
  - cbn [fine_run run_calls]. unfold bind, ret.
    pose proof (call_simulates c q Hq) as Hc.
    destruct (fine_call c q) as [a q1| | |]; try done.
    destruct Hc as [-> Hq1].
    destruct (fine_run cs q1) as [xs q2| | |] eqn:Hrun; try done.
    intros [= <- <-]. by rewrite (IH q1 xs Hq1 Hrun).
Qed.

End Locks.

(** X13. Adding the two mutexes to the dummy-node queue changes nothing one
    thread can see: whatever pushes and try_pops are run on a new queue of
    each kind, with the same allocator, every call returns, the try_pops
    hand back the same handles, and the two queues end with the same
    nodes on the heap and the same head and tail. *)
Theorem locks_change_nothing {T} (A : Allocator T) (cs : list (queue_call T)) :
  ∃ outs q,
    fine_run cs new = Returns outs q
    ∧ run_calls DummyQueue.dummy_call cs DummyQueue.new
      = Returns outs (DummyQueue.Mk (mem q) (head q) (tail q)).
Proof.
  destruct (FineQueueProps.runs_agree cs new [] FineQueueProps.holds_new)
    as (outs & q & _ & Hf & _).
  exists outs, q. split; [done|].
  by apply (calls_simulate cs new q outs).
Qed.

End DummyQueueProps.

(** ** hierarchical_mutex: refusals, try_lock, release on every path *)

Module HierarchyOrderProps.
Import Hierarchy.

Lemma hlock_returns (i : mutex_id) (w w1 : world) :
  hlock i w = Returns tt w1 →
  hierarchy_value (get i w) < this_thread_hierarchy_value w
  ∧ internal_mutex (get i w) = Free
  ∧ this_thread_hierarchy_value w1 = hierarchy_value (get i w)
  ∧ ∀ j, hierarchy_value (get j w1) = hierarchy_value (get j w).
Proof.
  unfold hlock, bind, check_for_hierarchy_violation, mutex_lock,
    update_hierarchy_value.
  destruct (this_thread_hierarchy_value w <=? hierarchy_value (get i w))
    eqn:Hle; [discriminate|].
  apply Z.leb_gt in Hle. simpl.
  destruct (internal_mutex (get i w)) eqn:Hm; [|discriminate].
  intros [= <-]. split; [done|]. split; [done|].
  destruct w as [t [mh vh ph] [ml vl pl] [mo vo po]].
  split; [by destruct i|]. intros j. by destruct i, j.
Qed.

(** X14. A lock() on a hierarchical mutex whose rank is not below the
    thread's current rank throws the hierarchy violation and touches
    nothing, whatever the state of the mutex.  So once a lock() has
    returned, the thread's rank is that mutex's rank, strictly below what
    it was, and every lock() on a mutex of the same or a higher rank
    throws: the mutex just locked itself in particular, which is refused
    instead of deadlocking. *)
Theorem lock_refuses_rank_not_below (i j : mutex_id) (w w1 : world) :
  hlock i w = Returns tt w1 →
  hierarchy_value (get i w) ≤ hierarchy_value (get j w) →
  this_thread_hierarchy_value w1 = hierarchy_value (get i w)
  ∧ this_thread_hierarchy_value w1 < this_thread_hierarchy_value w
  ∧ hlock j w1 = Throws violation w1
  ∧ hlock i w1 = Throws violation w1.
Proof.
  intros Hlock Hrank.
  destruct (hlock_returns i w w1 Hlock) as (Hlt & _ & Hthis & Hsame).
  split; [done|]. split; [lia|].
  assert (Hrefuse : ∀ k, hierarchy_value (get i w) ≤ hierarchy_value (get k w) →
                         hlock k w1 = Throws violation w1).
  { intros k Hk. unfold hlock, bind, check_for_hierarchy_violation.
    rewrite Hthis, Hsame.
    by rewrite (proj2 (Z.leb_le _ _) Hk). }
  split; [by apply Hrefuse|]. apply Hrefuse. lia.
Qed.

Lemma lock_refuses_rank_not_below_witness :
  ∃ w1, hlock low_level_mutex initial = Returns tt w1
        ∧ hlock high_level_mutex w1 = Throws violation w1
        ∧ hlock low_level_mutex w1 = Throws violation w1.
Proof.
  eexists. split; [reflexivity|].
  refine (proj2 (proj2 (lock_refuses_rank_not_below
                          low_level_mutex high_level_mutex initial _
                          eq_refl _))).
  vm_compute. discriminate.
Defined.

(** X15. try_lock() makes the same rank check as lock(): it throws the
    hierarchy violation in exactly the same worlds.  When the check
    passes and the mutex is free, a try_lock that gets the mutex leaves
    the world lock() leaves and answers true; one that does not get it
    answers false and changes nothing. *)
Theorem try_lock_like_lock (i : mutex_id) (w : world) :
  (this_thread_hierarchy_value w ≤ hierarchy_value (get i w) →
   ∀ acquired, try_lock i acquired w = Throws violation w
               ∧ hlock i w = Throws violation w)
  ∧ (hierarchy_value (get i w) < this_thread_hierarchy_value w →
     internal_mutex (get i w) = Free →
     try_lock i false w = Returns false w
     ∧ ∃ w1, hlock i w = Returns tt w1
             ∧ try_lock i true w = Returns true w1).
Proof.
  unfold try_lock, hlock, bind, check_for_hierarchy_violation, mutex_lock,
    mutex_try_lock, update_hierarchy_value, ret.
  split.
  - intros Hle acquired. by rewrite (proj2 (Z.leb_le _ _) Hle).
  - intros Hlt Hfree. rewrite (proj2 (Z.leb_gt _ _) Hlt). simpl.
    rewrite Hfree. simpl. split; [done|]. by eexists.
Qed.

Lemma try_lock_like_lock_witness :
  try_lock other_mutex false initial = Returns false initial
  ∧ ∃ w1, hlock other_mutex initial = Returns tt w1
          ∧ try_lock other_mutex true initial = Returns true w1.
Proof.
  refine (proj2 (try_lock_like_lock other_mutex initial) _ eq_refl).
  vm_compute. reflexivity.
Defined.

(** X16. high_level_func releases what it took on every way out.  In any
    world where high_level_mutex and low_level_mutex are free and the
    thread's rank is above high_level_mutex's: if low_level_mutex ranks
    below high_level_mutex the call returns, otherwise the inner lock
    throws the hierarchy violation; either way both mutexes are free again
    and the thread's rank is what it was before the call. *)
Theorem high_level_func_releases
    (do_low_level_stuff : Z) (high_level_stuff : Z → unit) (w : world) :
  internal_mutex (high w) = Free →
  internal_mutex (low w) = Free →
  hierarchy_value (high w) < this_thread_hierarchy_value w →
  ∃ w',
    high_level_func do_low_level_stuff high_level_stuff w
    = (if decide (hierarchy_value (low w) < hierarchy_value (high w))
       then Returns tt w' else Throws violation w')
    ∧ this_thread_hierarchy_value w' = this_thread_hierarchy_value w
    ∧ internal_mutex (high w') = Free
    ∧ internal_mutex (low w') = Free.
Proof.
  intros Hh Hl Hlt.
  destruct w as [t [mh vh ph] [ml vl pl] [mo vo po]]. simpl in *. subst.
  unfold high_level_func, low_level_func, lock_guard. simpl.
  unfold hlock, hunlock, bind, check_for_hierarchy_violation, mutex_lock,
    mutex_unlock, update_hierarchy_value, ret. simpl.
  rewrite (proj2 (Z.leb_gt _ _) Hlt). simpl.
  destruct (decide (vl < vh)) as [Hlow|Hlow].
  - rewrite (proj2 (Z.leb_gt _ _) Hlow). simpl.
    destruct (high_level_stuff do_low_level_stuff).
    eexists. split; [reflexivity|]. by repeat split.
  - rewrite (proj2 (Z.leb_le vh vl)) by lia. simpl.
    eexists. split; [reflexivity|]. by repeat split.
Qed.

Lemma high_level_func_releases_witness :
  ∃ w', high_level_func 0 (λ _, tt) initial = Returns tt w'
        ∧ this_thread_hierarchy_value w' = ULONG_MAX
        ∧ internal_mutex (high w') = Free
        ∧ internal_mutex (low w') = Free.
Proof.
  refine (high_level_func_releases 0 (λ _, tt) initial eq_refl eq_refl _).
  vm_compute. reflexivity.
Defined.

End HierarchyOrderProps.

(** ** Makefile: what the targets build and rebuild *)

Module MakefileBuildProps.
Import Makefile.

(** The three sources are there as files. *)
Definition has_sources (d : gmap string entry) : Prop :=
  d !! "./learn/hello-world.cpp" = Some File
  ∧ d !! "./learn/thread-waiting.cpp" = Some File
  ∧ d !! "./learn/run-background.cpp" = Some File.

(** X17. A make clean that succeeds changes no path other than build/bin:
    nothing the other rules build is removed by it.  Unless something
    named clean exists (then make finds the target up to date and runs
    nothing), build/bin is gone afterwards. *)
Theorem clean_changes_only_build_bin (builds : string → bool)
    (d d' : gmap string entry) :
  make builds clean d = Succeeds d' →
  (∀ path, path ≠ "build/bin" → d' !! path = d !! path)
  ∧ (d !! "clean" = None → d' !! "build/bin" = None).
Proof.
  intros Hclean. split.
  - intros path. by apply (MakefileProps.clean_only_build_bin builds).
  - intros Hnone. revert Hclean. unfold make, remake. simpl.
    rewrite Hnone. unfold rm_f.
    destruct (d !! "build/bin") as [[]|] eqn:Hb; simpl; intros [= <-]; [|done].
    apply lookup_delete_eq.
Qed.

Lemma clean_changes_only_build_bin_witness :
  make repository_builds clean (<["build/bin" := File]> sources)
  = Succeeds sources
  ∧ (∀ path, path ≠ "build/bin" →
             sources !! path = (<["build/bin" := File]> sources) !! path)
  ∧ sources !! "build/bin" = None.
Proof.
  assert (H : make repository_builds clean (<["build/bin" := File]> sources)
              = Succeeds sources)
    by (vm_compute; reflexivity).
  split; [exact H|].
  destruct (clean_changes_only_build_bin _ _ _ H) as [Hother Hgone].
  split; [exact Hother|]. apply Hgone. vm_compute. reflexivity.
Defined.

(** X18. The default goal does not get through.  In any directory that has
    the three sources and nothing named hello, thread-waiting,
    run-background, all or thread-wait, with g++ building hello-world.cpp
    and thread-waiting.cpp and failing on run-background.cpp (as it does
    in this repository, at the link), make builds hello and thread-wait
    and stops at run-background: the directory it leaves has those two
    executables added, no run-background, and every other path as it
    was. *)
Theorem default_goal_stops_at_run_background (builds : string → bool)
    (d : gmap string entry) :
  builds "./learn/hello-world.cpp" = true →
  builds "./learn/thread-waiting.cpp" = true →
  builds "./learn/run-background.cpp" = false →
  has_sources d →
  d !! "hello" = None → d !! "thread-waiting" = None →
  d !! "run-background" = None → d !! "all" = None →
  d !! "thread-wait" = None →
  make builds default_goal d
  = Stops (<["thread-wait" := File]> (<["hello" := File]> d)).
Proof.
  intros Hb1 Hb2 Hb3 (Hs1 & Hs2 & Hs3) Hhello Hwaiting Hrun Hall Hwait.
  unfold make, default_goal. cbn [prerequisites make_all_of].
  unfold remake at 1. cbn [name]. rewrite Hhello.
  cbn [commands run_commands]. unfold cc at 1. rewrite Hs1, Hb1, Hhello.
  unfold remake at 1. cbn [name].
  rewrite lookup_insert_ne by discriminate. rewrite Hwaiting.
  cbn [commands run_commands]. unfold cc at 1.
  rewrite !lookup_insert_ne by discriminate. rewrite Hs2, Hb2, Hwait.
  unfold remake at 1. cbn [name].
  rewrite !lookup_insert_ne by discriminate. rewrite Hrun.
  cbn [commands run_commands]. unfold cc at 1.
  rewrite !lookup_insert_ne by discriminate. rewrite Hs3, Hb3.
  reflexivity.
Qed.

Lemma default_goal_stops_at_run_background_witness :
  make repository_builds default_goal sources
  = Stops (<["thread-wait" := File]> (<["hello" := File]> sources)).
Proof.
  apply (default_goal_stops_at_run_background repository_builds sources);
    try reflexivity.
  repeat split; reflexivity.
Defined.

(** A target whose only command compiles [src] into [out]. *)
Definition compile_target (builds : string → bool) (nm out src : string)
    (d : gmap string entry) : result :=
  match d !! nm with
  | Some _ => Succeeds d
  | None => run_commands [cc builds out src] d
  end.

Lemma compile_target_other builds nm out src (d d' : gmap string entry) p :
  compile_target builds nm out src d = Succeeds d' → p ≠ out →
  d' !! p = d !! p.
Proof.
  unfold compile_target, cc. cbn [run_commands]. intros H Hp.
  destruct (d !! nm); [by injection H as <-|].
  destruct (d !! src) as [[]|]; try done.
  destruct (builds src); try done.
  destruct (d !! out) as [[]|]; try done;
    injection H as <-; by rewrite lookup_insert_ne.
Qed.

Lemma compile_target_again builds nm out src (d d' d2 : gmap string entry) :
  compile_target builds nm out src d = Succeeds d' →
  d2 !! nm = d' !! nm → d2 !! out = d' !! out → d2 !! src = d' !! src →
  compile_target builds nm out src d2 = Succeeds d2.
Proof.
  unfold compile_target, cc. cbn [run_commands]. intros H Hnm Hout Hsrc.
  destruct (d !! nm) as [e|] eqn:Hd.
  { injection H as <-. by rewrite Hnm, Hd. }
  destruct (d !! src) as [[]|] eqn:Hs; try done.
  destruct (builds src) eqn:Hbuilds; try done.
  assert (Hd' : d' = <[out := File]> d).
  { destruct (d !! out) as [[]|]; try done; by injection H as <-. }
  subst d'. rewrite lookup_insert_eq in Hout.
  destruct (d2 !! nm); [done|].
  assert (Hs2 : d2 !! src = Some File).
  { rewrite Hsrc. destruct (decide (out = src)) as [->|Hne].
    - apply lookup_insert_eq.
    - by rewrite lookup_insert_ne. }
  rewrite Hs2, Hout. by rewrite insert_id.
Qed.

(** X19. make is idempotent on the default goal, whatever g++ builds: in a
    directory a successful make has left, make succeeds again and changes
    nothing.  (hello and run-background are found and skipped;
    thread-waiting, whose rule writes thread-wait, is compiled again onto
    the same file.) *)
Theorem default_goal_idempotent (builds : string → bool)
    (d d1 : gmap string entry) :
  make builds default_goal d = Succeeds d1 →
  make builds default_goal d1 = Succeeds d1.
Proof.
  assert (Hall : ∀ x, remake builds all x = Succeeds x).
  { intros x. unfold remake. simpl. by destruct (x !! "all"). }
  unfold make, default_goal. cbn [prerequisites make_all_of].
  change (remake builds hello)
    with (compile_target builds "hello" "hello" "./learn/hello-world.cpp").
  change (remake builds thread_waiting)
    with (compile_target builds "thread-waiting" "thread-wait"
            "./learn/thread-waiting.cpp").
  change (remake builds run_background)
    with (compile_target builds "run-background" "run-background"
            "./learn/run-background.cpp").
  destruct (compile_target builds "hello" _ _ d) as [da|] eqn:Ha; [|done].
  destruct (compile_target builds "thread-waiting" _ _ da) as [db|] eqn:Hb;
    [|done].
  destruct (compile_target builds "run-background" _ _ db) as [dc|] eqn:Hc;
    [|done].
  rewrite Hall. intros [= ->].
  assert (Hbc : ∀ p, p ≠ "run-background" → d1 !! p = db !! p)
    by (intros p; apply (compile_target_other _ _ _ _ _ _ _ Hc)).
  assert (Hab : ∀ p, p ≠ "thread-wait" → db !! p = da !! p)
    by (intros p; apply (compile_target_other _ _ _ _ _ _ _ Hb)).
  rewrite (compile_target_again _ _ _ _ _ _ d1 Ha)
    by (rewrite Hbc, Hab; done).
  rewrite (compile_target_again _ _ _ _ _ _ d1 Hb) by (by rewrite Hbc).
  rewrite (compile_target_again _ _ _ _ _ _ d1 Hc) by done.
  apply Hall.
Qed.

(** A checkout in which something named run-background is already there,
    so that its rule is not run: here the default goal gets through. *)
Lemma default_goal_idempotent_witness :
  ∃ d1, make repository_builds default_goal
          (<["run-background" := File]> sources) = Succeeds d1
        ∧ d1 !! "hello" = Some File
        ∧ d1 !! "thread-wait" = Some File
        ∧ make repository_builds default_goal d1 = Succeeds d1.
Proof.
  eexists. split; [vm_compute; reflexivity|].
  split; [vm_compute; reflexivity|]. split; [vm_compute; reflexivity|].
  apply (default_goal_idempotent repository_builds
           (<["run-background" := File]> sources)).
  vm_compute. reflexivity.
Defined.

End MakefileBuildProps.

(** ** The queue without a dummy node *)

Module SimpleQueueProps.
Import SimpleQueue.

Section Representation.
Context {T : Type}.

(** The chain owned by [p]: the nodes at the addresses of [l], holding the
    values of [l], the last one with a null [next]. *)
Fixpoint lst (m : gmap loc (node T)) (p : option loc) (l : list (loc * T))
  : Prop :=
  match l with
  | [] => p = None
  | (a, v) :: rest => p = Some a ∧ ∃ nx, m !! a = Some (Node v nx) ∧ lst m nx rest
  end.

Lemma lst_same m m' p l :
  (∀ x, x ∈ l.*1 → m' !! x = m !! x) → lst m p l → lst m' p l.
Proof.
  revert p. induction l as [|[a v] l IH]; intros p Hsame; simpl; [done|].
  intros (-> & nx & Ha & Hl). split; [done|]. exists nx. split.
  - rewrite Hsame; [done|]. simpl. set_solver.
  - apply IH; [|done]. intros x Hx. apply Hsame. simpl. set_solver.
Qed.

Lemma lst_allocated m p l x : lst m p l → x ∈ l.*1 → is_Some (m !! x).
Proof.
  revert p. induction l as [|[a v] l IH]; intros p; simpl.
  - intros _ Hx. by apply elem_of_nil in Hx.
  - intros (-> & nx & Ha & Hl) Hx. apply elem_of_cons in Hx as [->|Hx]; eauto.
Qed.

(** Linking a new last node [b] behind the old last node [a]. *)
Lemma lst_snoc m p l a v b w :
  lst m p (l ++ [(a, v)]) → NoDup ((l ++ [(a, v)]).*1) → m !! b = None →
  lst (<[a := Node v (Some b)]> (<[b := Node w None]> m)) p
      ((l ++ [(a, v)]) ++ [(b, w)]).
Proof.
  revert p. induction l as [|[a0 v0] l IH]; intros p; simpl.
  - intros (-> & nx & Ha & ->) _ Hb. split; [done|]. exists (Some b).
    split; [apply lookup_insert_eq|]. split; [done|]. exists None.
    split; [|done]. rewrite lookup_insert_ne by congruence.
    apply lookup_insert_eq.
  - intros (-> & nx & Ha0 & Hl) Hnd Hb. apply NoDup_cons in Hnd as [Hnotin Hnd].
    split; [done|]. exists nx. split; [|by apply IH].
    rewrite fmap_app in Hnotin. simpl in Hnotin.
    rewrite !lookup_insert_ne; [done|congruence|set_solver].
Qed.

Lemma lst_last m p l a v : lst m p (l ++ [(a, v)]) → m !! a = Some (Node v None).
Proof.
  revert p. induction l as [|[a0 v0] l IH]; intros p; simpl.
  - by intros (-> & nx & Ha & ->).
  - intros (-> & nx & _ & Hl). by eapply IH.
Qed.

(** Between calls, with [tail] at the last node, or null when there is
    none. *)
Definition consistent (q : queue T) (l : list (loc * T)) : Prop :=
  lst (mem q) (head q) l ∧ NoDup l.*1 ∧ tail q = Pointer (last l.*1).

(** While the queue is emptied: [tail] stays at [t], the last node until
    that one is deleted too. *)
Definition draining (q : queue T) (l : list (loc * T)) (t : loc) : Prop :=
  lst (mem q) (head q) l ∧ NoDup l.*1 ∧ tail q = Pointer (Some t)
  ∧ match l with
    | [] => mem q !! t = None ∧ t ∈ freed q
    | _ :: _ => last l.*1 = Some t
    end.

Lemma try_pop_draining (q : queue T) a v l t :
  draining q ((a, v) :: l) t →
  ∃ q', try_pop q = Returns (make_shared v) q' ∧ draining q' l t.
Proof.
  intros (Hl & Hnd & Ht & Hlast).
  destruct q as [m F hd tl]. simpl in *. subst tl.
  destruct Hl as (-> & nx & Ha & Hl).
  apply NoDup_cons in Hnd as [Hnotin Hnd].
  unfold try_pop, bind, load, store, destroy, ret. simpl.
  repeat (first [rewrite lookup_insert_eq|rewrite Ha]; simpl).
  eexists. split; [reflexivity|]. unfold draining. simpl.
  rewrite delete_insert_eq.
  split; [|split; [done|split; [done|]]].
  - eapply lst_same; [|exact Hl]. intros x Hx.
    rewrite lookup_delete_ne; [done|]. intros ->. done.
  - destruct l as [|[a1 v1] l].
    + simpl in Hlast. injection Hlast as ->.
      split; [apply lookup_delete_eq|set_solver].
    + exact Hlast.
Qed.

Lemma try_pop_times_draining (q : queue T) l t :
  draining q l t →
  ∃ q', try_pop_times (length l) q = Returns (make_shared <$> l.*2) q'
        ∧ draining q' [] t.
Proof.
  revert q. induction l as [|[a v] l IH]; intros q Hq.
  - exists q. by split.
  - destruct (try_pop_draining q a v l t Hq) as (q1 & Hpop & Hq1).
    destruct (IH q1 Hq1) as (q' & Hrun & Hq').
    exists q'. split; [|done].
    cbn [length try_pop_times]. unfold bind, ret. rewrite Hpop.
    cbv beta iota. by rewrite Hrun.
Qed.

Context `{!Allocator}.

Lemma push_consistent (q : queue T) l v :
  consistent q l →
  ∃ q' a, push v q = Returns tt q' ∧ consistent q' (l ++ [(a, v)])
          ∧ freed q' = freed q.
Proof.
  intros (Hl & Hnd & Ht).
  destruct q as [m F hd tl]. simpl in *. subst tl.
  pose proof (alloc_fresh (dom m ∪ F)) as Hfresh.
  set (b := alloc (dom m ∪ F)) in *.
  assert (Hb : m !! b = None) by (apply not_elem_of_dom; set_solver).
  assert (Hnew : b ∉ l.*1).
  { intros Hin. destruct (lst_allocated _ _ _ _ Hl Hin) as [n Hn]. congruence. }
  destruct l as [|[a0 v0] l0 _] using rev_ind.
  - simpl in Hl. subst hd.
    unfold push, bind. simpl. fold b.
    eexists _, b. split; [reflexivity|]. split; [|done].
    unfold consistent. simpl. split; [|split; [|done]].
    + split; [done|]. exists None. split; [apply lookup_insert_eq|done].
    + apply NoDup_singleton.
  - pose proof (lst_last _ _ _ _ _ Hl) as Ha0.
    assert (Hne : b ≠ a0) by (intros ->; congruence).
    assert (Hlast : last ((l0 ++ [(a0, v0)]).*1) = Some a0)
      by (rewrite fmap_app; exact (last_snoc _ _)).
    rewrite Hlast.
    unfold push, bind, load, store. simpl. fold b.
    repeat (first [rewrite lookup_insert_eq
                  |rewrite lookup_insert_ne by done
                  |rewrite Ha0]; simpl).
    eexists _, b. split; [reflexivity|]. split; [|done].
    unfold consistent. simpl. split; [|split].
    + by apply lst_snoc.
    + rewrite fmap_app. simpl. apply NoDup_app. split; [done|].
      split; [|apply NoDup_singleton].
      intros x Hx Hx'. apply list_elem_of_singleton in Hx' as ->. done.
    + rewrite fmap_app. f_equal. symmetry. exact (last_snoc _ _).
Qed.

Lemma push_each_consistent (q : queue T) l vs :
  consistent q l →
  ∃ q' l', push_each vs q = Returns tt q' ∧ consistent q' (l ++ l')
           ∧ l'.*2 = vs ∧ freed q' = freed q.
Proof.
  revert q l. induction vs as [|v vs IH]; intros q l Hq.
  - exists q, []. rewrite app_nil_r.
    split; [done|]. split; [done|]. by split.
  - destruct (push_consistent q l v Hq) as (q1 & a & Hpush & Hq1 & HF1).
    destruct (IH q1 _ Hq1) as (q' & l' & Hrun & Hq' & Hvs & HF).
    exists q', ((a, v) :: l'). split; [|split; [|split]].
    + cbn [push_each]. unfold bind. rewrite Hpush. cbv beta iota. done.
    + by rewrite <- app_assoc in Hq'.
    + by rewrite fmap_cons, Hvs.
    + by rewrite HF, HF1.
Qed.

Lemma push_after_draining (q : queue T) t w :
  draining q [] t → push w q = Undefined.
Proof.
  intros (Hl & _ & Ht & Hgone & Hfreed).
  destruct q as [m F hd tl]. simpl in *. subst tl hd.
  pose proof (alloc_fresh (dom m ∪ F)) as Hfresh.
  unfold push, bind, load. simpl.
  rewrite lookup_insert_ne by set_solver. by rewrite Hgone.
Qed.

End Representation.

(** X20. The constructor gives [tail] no value: on a newly constructed
    queue try_pop hands back the empty handle and changes nothing, and
    push, which tests [tail], has undefined behaviour.  Started instead
    with [head] and [tail] null, the queue is first in, first out: after
    pushing the values [vs], as many try_pops hand them back in push
    order, and the next try_pop hands back the empty handle.  But try_pop
    never resets [tail]: once the last node is popped and deleted, [tail]
    still points at it, and the next push writes through that pointer,
    which is undefined behaviour. *)
Theorem emptied_queue_push_undefined {T} (A : Allocator) (vs : list T) (w : T) :
  vs ≠ [] →
  (try_pop (T := T) new = Returns None new ∧ push w new = Undefined)
  ∧ ∃ q, (push_each vs >>> try_pop_times (length vs)) (Mk ∅ ∅ None (Pointer None))
         = Returns (make_shared <$> vs) q
         ∧ try_pop q = Returns None q
         ∧ push w q = Undefined.
Proof.
  intros Hvs. split; [split; reflexivity|].
  destruct (push_each_consistent (Mk ∅ ∅ None (Pointer None)) [] vs)
    as (q1 & l & Hpush & (Hl & Hnd & Ht) & Hlvs & _).
  { split; [done|]. split; [apply NoDup_nil_2|done]. }
  simpl in Hl, Hnd, Ht.
  assert (Hlast : ∃ t, last l.*1 = Some t).
  { destruct l as [|x l _] using rev_ind.
    - simpl in Hlvs. congruence.
    - rewrite fmap_app. eexists. exact (last_snoc _ _). }
  destruct Hlast as [t Hlast].
  assert (Hdr : draining q1 l t).
  { split; [done|]. split; [done|]. split; [by rewrite Ht, Hlast|].
    destruct l; [done|exact Hlast]. }
  destruct (try_pop_times_draining q1 l t Hdr) as (q & Hpops & Hq).
  exists q. split; [|split].
  - unfold bind. rewrite Hpush.
    replace (length vs) with (length l)
      by (by rewrite <- Hlvs, length_fmap).
    by rewrite Hpops, Hlvs.
  - destruct Hq as (Hhd & _). simpl in Hhd.
    unfold try_pop. by rewrite Hhd.
  - by eapply push_after_draining.
Qed.

Lemma emptied_queue_push_undefined_witness :
  (try_pop (T := Z) new = Returns None new
   ∧ @push Z first_unused 8 new = Undefined)
  ∧ ∃ q, (@push_each Z first_unused [3; 5] >>> try_pop_times 2)
           (Mk ∅ ∅ None (Pointer None))
         = Returns [Some 3; Some 5] q
         ∧ try_pop q = Returns None q
         ∧ @push Z first_unused 8 q = Undefined.
Proof.
  apply (emptied_queue_push_undefined first_unused [3; 5] 8). discriminate.
Defined.

End SimpleQueueProps.
